(** * govcr: request filters (request.go)

    A shallow embedding of [request.go]: the [Request] value, the
    [RequestFilter] function type with its guards [OnMethod] and [OnPath],
    the two header filters, and the [RequestFilters] chain with [Append],
    [Add], [Prepend] and [combined].

    Go passes a [Request] by value, but two of the things a request and a
    chain are made of are references: [http.Header] is a map, and a
    [RequestFilters] value is a slice header over a backing array.  Both are
    modelled with an explicit store, so that what a call does to a value
    somebody else still holds can be stated. *)

From Stdlib Require Import Ascii String.
From stdpp Require Import base option list gmap strings fin_maps.

Local Open Scope string_scope.
Local Open Scope nat_scope.
Local Open Scope list_scope.

(** ** Outcomes

    A Go call either returns or panics. *)

Inductive outcome (A : Type) : Type :=
  | Ok (a : A)
  | Panic (msg : string).
Arguments Ok {A} a.
Arguments Panic {A} msg.

(** ** The imported packages

    [request.go] imports [net/http], [net/url] and [regexp].  Their code is
    not part of this repository; the file uses five things from them, which
    are taken as an interface.

    - [CanonicalMIMEHeaderKey]: [http.Header.Add] and [http.Header.Del]
      index the map with the canonical form of the key they are given.
    - [URL_String]: the [String] method of [url.URL].
    - [Compile] and [MatchString]: [regexp.Compile] ([None] when it returns
      an error, which is when [regexp.MustCompile] panics) and
      the [MatchString] method of a compiled [Regexp]. *)

(** [url.URL] and [url.Userinfo], field by field. *)
Record url_Userinfo : Type := mkUserinfo {
  username : string;
  password : string;
  passwordSet : bool
}.

Record url_URL : Type := mkURL {
  Scheme : string;
  Opaque : string;
  User : option url_Userinfo;
  Host : string;
  Path : string;
  RawPath : string;
  OmitHost : bool;
  ForceQuery : bool;
  RawQuery : string;
  Fragment : string;
  RawFragment : string
}.

Class Imports : Type := {
  CanonicalMIMEHeaderKey : string -> string;
  URL_String : url_URL -> string;
  Regexp : Type;
  Compile : string -> option Regexp;
  MatchString : Regexp -> string -> bool
}.

(** ** Data model *)

(** Addresses of heap objects (header maps, backing arrays). *)
Abbreviation loc := positive.

(** [http.Header] is [map[string][]string]. *)
Abbreviation http_Header := (gmap string (list string)).

(** The header maps that exist, by address.  An address that was never
    written reads as the empty map. *)
Abbreviation Headers := (gmap loc http_Header).

(** [type Request struct { Header; Body; Method; URL }].  [Header] holds the
    address of the map, [None] for the nil map; a copy of the struct shares
    the map.  No function of this file reads or writes [Body], which is kept
    as the bytes it holds. *)
Record Request : Type := mkRequest {
  Header : option loc;
  Body : list Byte.byte;
  Method : string;
  URL : url_URL
}.

(** A Go function from [Request] to [Request] runs against the header store,
    may update it, and may panic. *)
Definition run : Type := Headers -> outcome (Request * Headers).

Definition ret (req : Request) : run := fun h => Ok (req, h).

Definition bind (m : run) (k : Request -> run) : run :=
  fun h => match m h with
           | Ok (req, h') => k req h'
           | Panic msg => Panic msg
           end.

Definition panic (msg : string) : run := fun _ => Panic msg.

(** [type RequestFilter func(req Request) Request].  A function value may be
    nil ([None]); calling it panics. *)
Definition RequestFilter : Type := option (Request -> run).

Definition call (r : RequestFilter) (req : Request) : run :=
  match r with
  | Some f => f req
  | None => panic "invalid memory address or nil pointer dereference"
  end.

(** A filter that computes its result from the request alone: it neither
    reads nor writes the store, and returns. *)
Definition pure_filter (p : Request -> Request) : RequestFilter :=
  Some (fun req => ret (p req)).

(** *** Operations of [http.Header] used by the filters *)

Section HeaderOps.
Context {imp : Imports}.

(** [h.Values(key)]: the values stored under the canonical key. *)
Definition Values (hd : http_Header) (key : string) : list string :=
  default [] (hd !! CanonicalMIMEHeaderKey key).

(** [h.Add(key, value)] on a non-nil map:
    [key = CanonicalMIMEHeaderKey(key); h[key] = append(h[key], value)]. *)
Definition header_add (key value : string) (hd : http_Header) : http_Header :=
  <[CanonicalMIMEHeaderKey key := Values hd key ++ [value]]> hd.

(** [h.Del(key)]: [delete(h, CanonicalMIMEHeaderKey(key))]. *)
Definition header_del (key : string) (hd : http_Header) : http_Header :=
  delete (CanonicalMIMEHeaderKey key) hd.

(** [req.Header.Add(key, value)]: writes through the map reference; an
    entry cannot be assigned in the nil map. *)
Definition Header_Add (o : option loc) (key value : string) (h : Headers)
  : outcome Headers :=
  match o with
  | Some l => Ok (<[l := header_add key value (h !!! l)]> h)
  | None => Panic "assignment to entry in nil map"
  end.

(** [req.Header.Del(key)]: [delete] on the nil map does nothing. *)
Definition Header_Del (o : option loc) (key : string) (h : Headers)
  : Headers :=
  match o with
  | Some l => <[l := header_del key (h !!! l)]> h
  | None => h
  end.

(** What a holder of [req] reads as its header: the map behind the
    reference. *)
Definition header_of (h : Headers) (req : Request) : option http_Header :=
  (fun l => h !!! l) <$> Header req.
End HeaderOps.

(** ** The filters of request.go *)

Section Filters.
Context {imp : Imports}.

(** [func (r RequestFilter) OnMethod(method string) RequestFilter] *)
Definition OnMethod (r : RequestFilter) (method : string) : RequestFilter :=
  Some (fun req =>
    if negb (String.eqb (Method req) method) then ret req
    else call r req).

(** [regexp.MustCompile] *)
Definition MustCompile (str : string) : outcome Regexp :=
  match Compile str with
  | Some re => Ok re
  | None => Panic ("regexp: Compile(" +:+ str +:+ "): error parsing regexp")
  end.

(** [func (r RequestFilter) OnPath(pathRegEx string) RequestFilter].  The
    pattern is compiled when [OnPath] is called, before the closure
    exists. *)
Definition OnPath (r : RequestFilter) (pathRegEx : string)
  : outcome RequestFilter :=
  let pathRegEx := if String.eqb pathRegEx "" then ".*" else pathRegEx in
  match MustCompile pathRegEx with
  | Panic msg => Panic msg
  | Ok re =>
      Ok (Some (fun req =>
        if negb (MatchString re (URL_String (URL req))) then ret req
        else call r req))
  end.

(** [func RequestAddHeaderValue(key, value string) RequestFilter] *)
Definition RequestAddHeaderValue (key value : string) : RequestFilter :=
  Some (fun req h =>
    match Header_Add (Header req) key value h with
    | Ok h' => Ok (req, h')
    | Panic msg => Panic msg
    end).

(** [func RequestDeleteHeaderKeys(keys ...string) RequestFilter]: the
    [range] loop deletes the keys from first to last. *)
Definition RequestDeleteHeaderKeys (keys : list string) : RequestFilter :=
  Some (fun req h =>
    Ok (req, fold_left (fun h' key => Header_Del (Header req) key h') keys h)).
End Filters.

(** The pattern that [OnPath] compiles when it is given [p]. *)
Definition effective_pattern (p : string) : string :=
  if String.eqb p "" then ".*" else p.

(** ** Filter chains

    [type RequestFilters []RequestFilter].  A slice value is a header
    (pointer, length, capacity) over a backing array that other slice values
    may share.  The pointer is kept as the address of the array and the
    index of the slice's first element in it; the nil slice has no array. *)

Record RequestFilters : Type := mkSlice {
  array : option loc;
  offset : nat;
  len : nat;
  cap : nat
}.

(** [RequestFilters(nil)] *)
Definition nil_slice : RequestFilters := mkSlice None 0 0 0.

(** The backing arrays that exist, by address. *)
Abbreviation Arrays := (gmap loc (list RequestFilter)).

(** The elements [r[0], ..., r[len(r)-1]], read from the backing array. *)
Definition elems (A : Arrays) (r : RequestFilters) : list RequestFilter :=
  match array r with
  | Some l => take (len r) (drop (offset r) (A !!! l))
  | None => []
  end.

(** What Go maintains for every slice value: its capacity ends inside its
    array, and its length is within its capacity. *)
Definition wf_slice (A : Arrays) (r : RequestFilters) : Prop :=
  len r ≤ cap r ∧
  match array r with
  | Some l => offset r + cap r ≤ length (A !!! l)
  | None => cap r = 0
  end.

(** Copying [vs] into an array from index [i] on. *)
Definition write_at {T} (i : nat) (vs : list T) (arr : list T) : list T :=
  take i arr ++ vs ++ drop (i + length vs) arr.

(** When [append] has to allocate, the runtime chooses the capacity of the
    new array: at least what is needed, plus some spare room, which
    [growslice_spare oldcap needed] stands for. *)
Class Runtime : Type := {
  growslice_spare : nat -> nat -> nat
}.

Section Chains.
Context {rt : Runtime}.

(** [make(RequestFilters, n, c)]: a new array of [c] nil filters. *)
Definition make (n c : nat) (A : Arrays) : RequestFilters * Arrays :=
  let l := fresh (dom A) in
  (mkSlice (Some l) 0 n c, <[l := replicate c None]> A).

(** [append(s, vs...)]: when the values fit in the capacity of [s] they
    are written into its array after its last element, otherwise the
    elements of [s] and the values are copied to a new array. *)
Definition append (s : RequestFilters) (vs : list RequestFilter) (A : Arrays)
  : RequestFilters * Arrays :=
  let n := len s + length vs in
  if decide (n ≤ cap s) then
    (mkSlice (array s) (offset s) n (cap s),
     match array s with
     | Some l => <[l := write_at (offset s + len s) vs (A !!! l)]> A
     | None => A
     end)
  else
    let l := fresh (dom A) in
    let spare := growslice_spare (cap s) n in
    (mkSlice (Some l) 0 n (n + spare),
     <[l := elems A s ++ vs ++ replicate spare None]> A).

(** [func (r RequestFilters) Append(filters ...RequestFilter) RequestFilters].
    The variadic argument is itself a slice; [append] reads it before it
    writes. *)
Definition Append (r filters : RequestFilters) (A : Arrays)
  : RequestFilters * Arrays :=
  append r (elems A filters) A.

(** [func (r *RequestFilters) Add(filters ...RequestFilter)].  [r] points
    to a variable holding a chain; [V] holds those variables, and a variable
    that was never assigned holds the nil chain. *)
Definition Add (r : loc) (filters : RequestFilters)
    (V : gmap loc RequestFilters) (A : Arrays)
  : gmap loc RequestFilters * Arrays :=
  let v := default nil_slice (V !! r) in
  let '(v, A) := append v (elems A filters) A in
  (<[r := v]> V, A).

(** [func (r RequestFilters) Prepend(filters ...RequestFilter) RequestFilters] *)
Definition Prepend (r filters : RequestFilters) (A : Arrays)
  : RequestFilters * Arrays :=
  let '(dst, A1) := make 0 (len filters + len r) A in
  let '(dst, A2) := append dst (elems A1 filters) A1 in
  append dst (elems A2 r) A2.
End Chains.

(** The loop of [combined]: [for _, filter := range r { req = filter(req) }]. *)
Fixpoint range_loop (fs : list RequestFilter) (req : Request) : run :=
  match fs with
  | [] => ret req
  | filter :: fs' => bind (call filter req) (range_loop fs')
  end.

(** [func (r RequestFilters) combined() RequestFilter].  The closure holds
    the slice header [r]; its elements are read from the backing array when
    the closure is called, so [A] is the array store at that time. *)
Definition combined (A : Arrays) (r : RequestFilters) : RequestFilter :=
  Some (fun req => range_loop (elems A r) req).

(** The specification's [apply]: the value folded through each filter in
    sequence order, starting from the value itself. *)
Definition apply_spec (fs : list RequestFilter) (req : Request) : run :=
  fold_left (fun acc f => bind acc (call f)) fs (ret req).

(** ** An implementation of the imported packages

    The theorems below hold for every implementation of [Imports] and
    [Runtime].  To run the filters on concrete requests, this module gives
    one, written after the Go standard library:

    - [CanonicalMIMEHeaderKey] as in [net/textproto];
    - [URL_String] with the layout of the [String] method of [url.URL], for
      URLs whose components need no percent-escaping (escaping is left out);
    - [regexp] for the fragment of its syntax made of literal ASCII
      characters, escaped punctuation, [.], [^], [$], [|], grouping with
      parentheses and the operators [*], [+] and [?] (also in their lazy
      forms), on ASCII text.  Other syntax is rejected by [Compile] here,
      although [regexp] accepts much of it. *)

Module Go.

(** *** net/textproto *)

Definition is_lower (c : ascii) : bool :=
  (97 <=? nat_of_ascii c) && (nat_of_ascii c <=? 122).
Definition is_upper (c : ascii) : bool :=
  (65 <=? nat_of_ascii c) && (nat_of_ascii c <=? 90).
Definition is_digit (c : ascii) : bool :=
  (48 <=? nat_of_ascii c) && (nat_of_ascii c <=? 57).

Fixpoint mem_ascii (c : ascii) (s : string) : bool :=
  match s with
  | EmptyString => false
  | String d s' => Ascii.eqb c d || mem_ascii c s'
  end.

(** The bytes of an RFC 7230 token. *)
Definition validHeaderFieldByte (c : ascii) : bool :=
  is_lower c || is_upper c || is_digit c || mem_ascii c "!#$%&'*+-.^_`|~".

Fixpoint all_bytes (p : ascii -> bool) (s : string) : bool :=
  match s with
  | EmptyString => true
  | String c s' => p c && all_bytes p s'
  end.

(** Upper case at the start and after each dash, lower case elsewhere. *)
Fixpoint canonicalize (upper : bool) (s : string) : string :=
  match s with
  | EmptyString => EmptyString
  | String c s' =>
      let c' :=
        if upper && is_lower c then ascii_of_nat (nat_of_ascii c - 32)
        else if negb upper && is_upper c then ascii_of_nat (nat_of_ascii c + 32)
        else c in
      String c' (canonicalize (Ascii.eqb c' "-") s')
  end.

(** A key with a byte that is not a token byte is returned as it is. *)
Definition CanonicalMIMEHeaderKey (s : string) : string :=
  if all_bytes validHeaderFieldByte s then canonicalize true s else s.

(** *** net/url *)

Definition nonempty (s : string) : bool := negb (String.eqb s "").

Definition userinfo_String (u : url_Userinfo) : string :=
  if passwordSet u then username u +:+ ":" +:+ password u else username u.

(** Whether the first segment of a path (up to its first slash) has a
    colon. *)
Fixpoint first_segment_has_colon (path : string) : bool :=
  match path with
  | EmptyString => false
  | String c s' =>
      if Ascii.eqb c "/" then false
      else Ascii.eqb c ":" || first_segment_has_colon s'
  end.

Definition starts_with_slash (path : string) : bool :=
  match path with
  | String c _ => Ascii.eqb c "/"
  | EmptyString => false
  end.

Definition URL_String (u : url_URL) : string :=
  let buf := if nonempty (Scheme u) then Scheme u +:+ ":" else "" in
  let buf :=
    if nonempty (Opaque u) then buf +:+ Opaque u
    else
      let buf :=
        if nonempty (Scheme u) || nonempty (Host u) || bool_decide (is_Some (User u)) then
          if OmitHost u && negb (nonempty (Host u)) && bool_decide (User u = None) then buf
          else
            let buf :=
              if nonempty (Host u) || nonempty (Path u) || bool_decide (is_Some (User u))
              then buf +:+ "//" else buf in
            let buf :=
              match User u with
              | Some ui => buf +:+ userinfo_String ui +:+ "@"
              | None => buf
              end in
            if nonempty (Host u) then buf +:+ Host u else buf
        else buf in
      let path := Path u in
      let buf :=
        if nonempty path && negb (starts_with_slash path) && nonempty (Host u)
        then buf +:+ "/" else buf in
      let buf :=
        if negb (nonempty buf) && first_segment_has_colon path
        then buf +:+ "./" else buf in
      buf +:+ path in
  let buf :=
    if ForceQuery u || nonempty (RawQuery u) then buf +:+ "?" +:+ RawQuery u
    else buf in
  if nonempty (Fragment u) then buf +:+ "#" +:+ Fragment u else buf.

(** *** regexp *)

Inductive re : Type :=
  | EmptyMatch                 (* matches the empty string *)
  | NoMatch                    (* matches nothing *)
  | Literal (c : ascii)
  | AnyCharNotNL               (* . *)
  | BeginText                  (* ^ *)
  | EndText                    (* $ *)
  | Concat (r1 r2 : re)
  | Alternate (r1 r2 : re)
  | Star (r : re).

Definition Plus (r : re) : re := Concat r (Star r).
Definition Quest (r : re) : re := Alternate r EmptyMatch.

(** **** Parsing *)

(** The parser keeps, for the group it is in, the alternatives it has
    closed and the items of the alternative it is reading, both latest
    first, and a stack of the same for the enclosing groups. *)
Definition frame : Type := list re * list re.

Definition concat_items (items : list re) : re :=
  match rev items with
  | [] => EmptyMatch
  | r :: rs => fold_left Concat rs r
  end.

Definition close_frame (f : frame) : re :=
  match rev (concat_items f.2 :: f.1) with
  | [] => NoMatch
  | r :: rs => fold_left Alternate rs r
  end.

(** Whether the previous token was a repetition operator, and whether it
    already has its lazy mark. *)
Inductive last_token : Type := NotRepeat | Repeat | RepeatLazy.

Definition escapable (c : ascii) : bool := mem_ascii c "\.+*?()|[]{}^$/-".
Definition unsupported (c : ascii) : bool :=
  mem_ascii c "[]{}" || (128 <=? nat_of_ascii c).

Definition push_item (r : re) (f : frame) : frame := (f.1, r :: f.2).

Definition repeat_last (op : re -> re) (f : frame) : option frame :=
  match f.2 with
  | [] => None                       (* missing argument to repetition operator *)
  | r :: rs => Some (f.1, op r :: rs)
  end.

Fixpoint parse (s : string) (stack : list frame) (cur : frame)
    (last : last_token) : option re :=
  match s with
  | EmptyString =>
      match stack with
      | [] => Some (close_frame cur)
      | _ :: _ => None               (* missing closing ) *)
      end
  | String c t =>
      if Ascii.eqb c "(" then
        match t with
        | String "?" _ => None       (* flags and non-capturing groups *)
        | _ => parse t (cur :: stack) ([], []) NotRepeat
        end
      else if Ascii.eqb c ")" then
        match stack with
        | [] => None                 (* unexpected ) *)
        | parent :: stack' =>
            parse t stack' (push_item (close_frame cur) parent) NotRepeat
        end
      else if Ascii.eqb c "|" then
        parse t stack (concat_items cur.2 :: cur.1, []) NotRepeat
      else if Ascii.eqb c "*" || Ascii.eqb c "+" || Ascii.eqb c "?" then
        match last with
        | NotRepeat =>
            let op := if Ascii.eqb c "*" then Star
                      else if Ascii.eqb c "+" then Plus else Quest in
            match repeat_last op cur with
            | Some cur' => parse t stack cur' Repeat
            | None => None
            end
        | Repeat =>
            if Ascii.eqb c "?" then parse t stack cur RepeatLazy
            else None                (* invalid nested repetition operator *)
        | RepeatLazy => None
        end
      else if Ascii.eqb c "\" then
        match t with
        | EmptyString => None        (* trailing backslash *)
        | String d t' =>
            if escapable d then parse t' stack (push_item (Literal d) cur) NotRepeat
            else None
        end
      else if Ascii.eqb c "." then
        parse t stack (push_item AnyCharNotNL cur) NotRepeat
      else if Ascii.eqb c "^" then
        parse t stack (push_item BeginText cur) NotRepeat
      else if Ascii.eqb c "$" then
        parse t stack (push_item EndText cur) NotRepeat
      else if unsupported c then None
      else parse t stack (push_item (Literal c) cur) NotRepeat
  end.

Definition Compile (expr : string) : option re :=
  parse expr [] ([], []) NotRepeat.

(** **** Matching, by derivatives

    [b] says that the position is the beginning of the text, [e] that it
    is its end. *)

Fixpoint nullable (b e : bool) (r : re) : bool :=
  match r with
  | EmptyMatch => true
  | NoMatch | Literal _ | AnyCharNotNL => false
  | BeginText => b
  | EndText => e
  | Concat r1 r2 => nullable b e r1 && nullable b e r2
  | Alternate r1 r2 => nullable b e r1 || nullable b e r2
  | Star _ => true
  end.

Definition newline : ascii := ascii_of_nat 10.

(** What is left of [r] to match once the character [c] has been read. *)
Fixpoint deriv (b : bool) (c : ascii) (r : re) : re :=
  match r with
  | EmptyMatch | NoMatch | BeginText | EndText => NoMatch
  | Literal a => if Ascii.eqb a c then EmptyMatch else NoMatch
  | AnyCharNotNL => if Ascii.eqb c newline then NoMatch else EmptyMatch
  | Concat r1 r2 =>
      Alternate (Concat (deriv b c r1) r2)
                (if nullable b false r1 then deriv b c r2 else NoMatch)
  | Alternate r1 r2 => Alternate (deriv b c r1) (deriv b c r2)
  | Star r1 => Concat (deriv b c r1) (Star r1)
  end.

(** Does [r] match some prefix of [s]? *)
Fixpoint match_here (r : re) (s : string) (b : bool) : bool :=
  match s with
  | EmptyString => nullable b true r
  | String c s' => nullable b false r || match_here (deriv b c r) s' false
  end.

(** Does [r] match somewhere in [s]? *)
Fixpoint search (r : re) (s : string) (b : bool) : bool :=
  match_here r s b ||
  match s with
  | EmptyString => false
  | String _ s' => search r s' false
  end.

Definition MatchString (r : re) (s : string) : bool := search r s true.

#[export] Instance imports : Imports :=
  Build_Imports CanonicalMIMEHeaderKey URL_String re Compile MatchString.

(** *** runtime

    Doubling, as [growslice] does for small slices: the new capacity is
    the larger of what is needed and twice the old capacity. *)
#[export] Instance runtime : Runtime := {|
  growslice_spare oldcap needed := 2 * oldcap - needed
|}.

End Go.

(** ** Requests and stores used as concrete inputs *)

Module Sample.
#[local] Existing Instances Go.imports Go.runtime.


Definition order_url : url_URL :=
  mkURL "http" "" None "example.com" "/order/111" "" false false "" "" "".

(** The header stores: one map at address 1, empty in [h_empty] and with
    one [Accept] value in [h_accept]. *)
Definition h_empty : Headers := {[ 1%positive := ∅ ]}.
Definition h_accept : Headers :=
  {[ 1%positive := {[ "Accept" := ["text/html"] ]} ]}.

Definition get_order : Request :=
  mkRequest (Some 1%positive) [] "GET" order_url.
Definition post_order : Request :=
  mkRequest (Some 1%positive) [] "POST" order_url.

(** The filter of the repository's example 7, which rewrites the path and
    the host of the request it is given. *)
Definition replacePath : RequestFilter :=
  Some (fun req =>
    let u := URL req in
    ret (mkRequest (Header req) (Body req) (Method req)
           (mkURL (Scheme u) (Opaque u) (User u) "127.0.0.1" "/order/1234"
                  (RawPath u) (OmitHost u) (ForceQuery u) (RawQuery u)
                  (Fragment u) (RawFragment u)))).

(** Two filters without effects on the store, and a chain holding them in
    an array with one spare slot. *)
Definition set_method (m : string) (req : Request) : Request :=
  mkRequest (Header req) (Body req) m (URL req).
Definition drop_body (req : Request) : Request :=
  mkRequest (Header req) [] (Method req) (URL req).

Definition two_filters : list RequestFilter :=
  [pure_filter (set_method "PUT"); pure_filter drop_body].
Definition arrays2 : Arrays :=
  {[ 1%positive := two_filters ++ [None] ]}.
Definition chain2 : RequestFilters := mkSlice (Some 1%positive) 0 2 3.
Definition chain1 : RequestFilters := mkSlice (Some 1%positive) 1 1 1.

(** A header filter, patterns as [regexp] compiles them, and the
    filter [OnPath] builds around [replacePath] for a compiled pattern. *)
Definition add_test_header : RequestFilter :=
  RequestAddHeaderValue "X-Test" "1".

Definition h_test : Headers :=
  {[ 1%positive := {[ "X-Test" := ["1"] ]} ]}.

(** The pattern [/order/], compiled. *)
Definition re_order : Regexp :=
  Eval vm_compute in default Go.NoMatch (Go.Compile "/order/").

(** The pattern [^/order/], compiled. *)
Definition re_order_anchored : Regexp :=
  Eval vm_compute in default Go.NoMatch (Go.Compile "^/order/").

(** The pattern [example], compiled. *)
Definition re_example : Regexp :=
  Eval vm_compute in default Go.NoMatch (Go.Compile "example").

(** The request with the host and the path of its URL replaced, which is
    what [replacePath] returns for its two constants. *)
Definition with_host_path (host path : string) (req : Request) : Request :=
  let u := URL req in
  mkRequest (Header req) (Body req) (Method req)
    (mkURL (Scheme u) (Opaque u) (User u) host path
           (RawPath u) (OmitHost u) (ForceQuery u) (RawQuery u)
           (Fragment u) (RawFragment u)).

(** What [OnPath] returns for a pattern that compiles to [re]. *)
Definition on_path (re : Regexp) : RequestFilter :=
  Some (fun req =>
    if negb (MatchString re (URL_String (URL req))) then ret req
    else call replacePath req).

(** A request whose header is the nil map. *)
Definition bare_get : Request := mkRequest None [] "GET" order_url.

(** The whole array of [arrays2] as a chain, nil filter included, and its
    first element as a chain. *)
Definition chain3 : RequestFilters := mkSlice (Some 1%positive) 0 3 3.
Definition chain_first : RequestFilters := mkSlice (Some 1%positive) 0 1 1.

(** The argument of [Add] in example 7: an array holding the guarded
    filter. *)
Definition arrays7 : Arrays := {[ 1%positive := [on_path re_order] ]}.
Definition args7 : RequestFilters := mkSlice (Some 1%positive) 0 1 1.
End Sample.

(** * Properties *)

(** ** The outcome monad *)

Lemma bind_ret_l (req : Request) (k : Request -> run) (h : Headers) :
  bind (ret req) k h = k req h.
Proof. reflexivity. Qed.

Lemma bind_ret_r (m : run) (h : Headers) : bind m ret h = m h.
Proof. unfold bind, ret. destruct (m h) as [[req h']|msg]; reflexivity. Qed.

Lemma bind_assoc (m : run) (k1 k2 : Request -> run) (h : Headers) :
  bind (bind m k1) k2 h = bind m (fun req => bind (k1 req) k2) h.
Proof. unfold bind. destruct (m h) as [[req h']|msg]; reflexivity. Qed.

Lemma bind_ext (m : run) (k1 k2 : Request -> run) (h : Headers) :
  (forall req h', k1 req h' = k2 req h') -> bind m k1 h = bind m k2 h.
Proof.
  intros Hk. unfold bind. destruct (m h) as [[req h']|msg]; [apply Hk | reflexivity].
Qed.

(** ** Guards *)

Section GuardProperties.
Context {imp : Imports}.

Lemma OnMethod_call (f : RequestFilter) (m : string) (x : Request) :
  call (OnMethod f m) x =
  if String.eqb (Method x) m then call f x else ret x.
Proof. simpl. destruct (String.eqb (Method x) m); reflexivity. Qed.

Lemma effective_pattern_nonempty (p : string) :
  p <> "" -> effective_pattern p = p.
Proof.
  intros Hp. unfold effective_pattern.
  destruct (String.eqb_spec p ""); [contradiction | reflexivity].
Qed.

Lemma OnPath_compiled (f : RequestFilter) (p : string) (re : Regexp) :
  Compile (effective_pattern p) = Some re ->
  OnPath f p =
  Ok (Some (fun req =>
    if negb (MatchString re (URL_String (URL req))) then ret req
    else call f req)).
Proof.
  intros Hc. unfold OnPath, MustCompile. fold (effective_pattern p).
  rewrite Hc. reflexivity.
Qed.

Lemma OnPath_not_compiled (f : RequestFilter) (p : string) :
  Compile (effective_pattern p) = None ->
  exists msg, OnPath f p = Panic msg.
Proof.
  intros Hc. unfold OnPath, MustCompile. fold (effective_pattern p).
  rewrite Hc. eauto.
Qed.

Lemma OnPath_inv (f g : RequestFilter) (p : string) :
  OnPath f p = Ok g ->
  exists re, Compile (effective_pattern p) = Some re /\
    g = Some (fun req =>
      if negb (MatchString re (URL_String (URL req))) then ret req
      else call f req).
Proof.
  intros Hg. destruct (Compile (effective_pattern p)) as [re|] eqn:Hc.
  - rewrite (OnPath_compiled f p re Hc) in Hg. injection Hg as <-. eauto.
  - destruct (OnPath_not_compiled f p Hc) as [msg Hm]. congruence.
Qed.
End GuardProperties.

Section GuardClaims.
Context {imp : Imports}.

(** C3. A filter guarded by [OnMethod m] returns the request unchanged,
    without touching the store, when the request's method is not [m], and
    does exactly what the unguarded filter does when it is [m]. *)
Theorem OnMethod_guard (f : RequestFilter) (m : string) (x : Request)
    (h : Headers) :
  (Method x <> m -> call (OnMethod f m) x h = Ok (x, h)) /\
  (Method x = m -> call (OnMethod f m) x h = call f x h).
Proof.
  rewrite OnMethod_call.
  destruct (String.eqb_spec (Method x) m) as [He|Hne]; split; intros Hm;
    try contradiction; reflexivity.
Qed.

(** C2, as the code has it. For a non-empty pattern [p] that compiles,
    [OnPath] returns a filter that does exactly what [f] does when the
    pattern matches the string form of the request's whole URL, and
    returns the request unchanged when it does not. *)
Theorem OnPath_guard (f : RequestFilter) (p : string) (re : Regexp)
    (x : Request) (h : Headers) :
  p <> "" ->
  Compile p = Some re ->
  exists g, OnPath f p = Ok g /\
    (MatchString re (URL_String (URL x)) = true -> call g x h = call f x h) /\
    (MatchString re (URL_String (URL x)) = false -> call g x h = Ok (x, h)).
Proof.
  intros Hp Hc. rewrite <- (effective_pattern_nonempty p Hp) in Hc.
  eexists. split; [apply (OnPath_compiled f p re Hc) |].
  simpl. split; intros ->; reflexivity.
Qed.

(** C6. With the empty pattern [OnPath] compiles [.*]; as that pattern
    matches every string, the guarded filter does on every request what
    the unguarded filter does. *)
Theorem OnPath_empty_pattern (f : RequestFilter) (re : Regexp) :
  Compile ".*" = Some re ->
  (forall s, MatchString re s = true) ->
  exists g, OnPath f "" = Ok g /\
    forall x h, call g x h = call f x h.
Proof.
  intros Hc Hall. eexists. split; [apply (OnPath_compiled f "" re Hc) |].
  intros x h. simpl. rewrite Hall. reflexivity.
Qed.

(** C9. A pattern that does not compile makes [OnPath] panic, so no
    filter is returned and no request is ever given to one; and a filter
    that [OnPath] did return is a function which, on every request, either
    returns the request unchanged or does what the guarded filter does:
    it has no failure of its own. *)
Theorem OnPath_fails_at_construction (f : RequestFilter) (p : string) :
  (p <> "" -> Compile p = None -> exists msg, OnPath f p = Panic msg) /\
  (forall g, OnPath f p = Ok g ->
     g <> None /\
     forall x h, call g x h = Ok (x, h) \/ call g x h = call f x h).
Proof.
  split.
  - intros Hp Hc. apply OnPath_not_compiled.
    rewrite (effective_pattern_nonempty p Hp). exact Hc.
  - intros g Hg. destruct (OnPath_inv f g p Hg) as (re & _ & ->).
    split; [discriminate |]. intros x h. simpl.
    destruct (MatchString re (URL_String (URL x))); [right | left]; reflexivity.
Qed.
End GuardClaims.

(** ** Applying a chain *)

Lemma range_loop_app (fs gs : list RequestFilter) (req : Request) (h : Headers) :
  range_loop (fs ++ gs) req h = bind (range_loop fs req) (range_loop gs) h.
Proof.
  revert req h. induction fs as [|f fs IH]; intros req h; simpl.
  - reflexivity.
  - rewrite bind_assoc. apply bind_ext. intros req' h'. apply IH.
Qed.

(** Folding from an accumulated run [acc] is running [acc] and then the
    loop. *)
Lemma fold_filters_bind (fs : list RequestFilter) (acc : run) (h : Headers) :
  fold_left (fun acc f => bind acc (call f)) fs acc h =
  bind acc (range_loop fs) h.
Proof.
  revert acc h. induction fs as [|f fs IH]; intros acc h; simpl.
  - symmetry. apply bind_ret_r.
  - rewrite IH. apply bind_assoc.
Qed.

Lemma range_loop_fold (fs : list RequestFilter) (req : Request) (h : Headers) :
  range_loop fs req h = apply_spec fs req h.
Proof. unfold apply_spec. rewrite fold_filters_bind. reflexivity. Qed.

Lemma range_loop_pure (ps : list (Request -> Request)) (req : Request)
    (h : Headers) :
  range_loop (map pure_filter ps) req h =
  Ok (fold_left (fun a p => p a) ps req, h).
Proof.
  revert req. induction ps as [|p ps IH]; intros req; simpl.
  - reflexivity.
  - rewrite bind_ret_l. apply IH.
Qed.

Lemma elems_nil_slice (A : Arrays) : elems A nil_slice = [].
Proof. reflexivity. Qed.

(** C4. The combined filter of the nil chain returns every request
    unchanged and leaves the store as it is. *)
Theorem combined_nil (A : Arrays) (x : Request) (h : Headers) :
  call (combined A nil_slice) x h = Ok (x, h).
Proof. unfold combined, call. rewrite elems_nil_slice. reflexivity. Qed.

(** C5. The combined filter of a chain is the fold of the request through
    the chain's elements in order, each filter being given what the previous
    one returned (and the store it left); for a chain [p1, ..., pn] of
    filters without effects the result is [pn (... (p1 x))]. *)
Theorem combined_folds_in_order (A : Arrays) (r : RequestFilters)
    (x : Request) (h : Headers) :
  call (combined A r) x h = apply_spec (elems A r) x h /\
  (forall f fs, elems A r = f :: fs ->
     call (combined A r) x h = bind (call f x) (range_loop fs) h) /\
  (forall ps, elems A r = map pure_filter ps ->
     call (combined A r) x h = Ok (fold_left (fun a p => p a) ps x, h)).
Proof.
  simpl. split; [apply range_loop_fold | split].
  - intros f fs ->. reflexivity.
  - intros ps ->. apply range_loop_pure.
Qed.

(** ** The header filters *)

Section HeaderProperties.
Context {imp : Imports}.

Lemma Values_header_add_eq (key value : string) (hd : http_Header) :
  Values (header_add key value hd) key = Values hd key ++ [value].
Proof. unfold Values at 1, header_add. rewrite lookup_insert_eq. reflexivity. Qed.

Lemma Values_header_add_ne (key key' value : string) (hd : http_Header) :
  CanonicalMIMEHeaderKey key' <> CanonicalMIMEHeaderKey key ->
  Values (header_add key value hd) key' = Values hd key'.
Proof.
  intros Hne. unfold Values at 1, header_add.
  rewrite lookup_insert_ne by congruence. reflexivity.
Qed.

Lemma header_del_fold_lookup (keys : list string) (hd : http_Header)
    (k : string) :
  fold_left (fun hd key => header_del key hd) keys hd !! k =
  if bool_decide (k ∈ map CanonicalMIMEHeaderKey keys) then None else hd !! k.
Proof.
  revert hd. induction keys as [|key keys IH]; intros hd; simpl.
  - reflexivity.
  - rewrite IH. unfold header_del.
    destruct (decide (k = CanonicalMIMEHeaderKey key)) as [->|Hne].
    + rewrite lookup_delete_eq.
      rewrite (bool_decide_eq_true_2 (_ ∈ _ :: _)) by apply list_elem_of_here.
      destruct (bool_decide _); reflexivity.
    + rewrite lookup_delete_ne by congruence.
      apply (f_equal (fun b : bool => if b then None else hd !! k)).
      apply bool_decide_ext. rewrite elem_of_cons. intuition congruence.
Qed.

(** The loop of [RequestDeleteHeaderKeys] on a request whose header is the
    map at [l]: that map loses the keys, the other maps stay. *)
Lemma Header_Del_fold (l : loc) (keys : list string) (h : Headers) :
  fold_left (fun h' key => Header_Del (Some l) key h') keys h !!! l =
    fold_left (fun hd key => header_del key hd) keys (h !!! l) /\
  forall l', l' <> l ->
    fold_left (fun h' key => Header_Del (Some l) key h') keys h !! l' = h !! l'.
Proof.
  revert h. induction keys as [|key keys IH]; intros h; cbn [fold_left].
  - split; reflexivity.
  - destruct (IH (Header_Del (Some l) key h)) as [IH1 IH2].
    split.
    + rewrite IH1. unfold Header_Del. rewrite lookup_total_insert_eq. reflexivity.
    + intros l' Hne. rewrite IH2 by exact Hne.
      unfold Header_Del. apply lookup_insert_ne. congruence.
Qed.

Lemma Header_Del_fold_nil (keys : list string) (h : Headers) :
  fold_left (fun h' key => Header_Del None key h') keys h = h.
Proof. induction keys as [|key keys IH]; simpl; [reflexivity | exact IH]. Qed.

(** C1, as the code has it. A header filter returns the very request it
    was given, which shares its header map with the caller's value, and
    works on that map in place: after [RequestAddHeaderValue] the map
    behind the input request is the old one with the value added, after
    [RequestDeleteHeaderKeys] it is the old one without the keys. Every
    other header map is left as it was. ([RequestAddHeaderValue] needs a
    header map to write to.) *)
Theorem header_filters_update_in_place (key value : string)
    (keys : list string) (x : Request) (h : Headers) :
  (is_Some (Header x) ->
   exists h',
     call (RequestAddHeaderValue key value) x h = Ok (x, h') /\
     header_of h' x = header_add key value <$> header_of h x /\
     forall l, Header x <> Some l -> h' !! l = h !! l) /\
  (exists h',
     call (RequestDeleteHeaderKeys keys) x h = Ok (x, h') /\
     header_of h' x =
       fold_left (fun hd k => header_del k hd) keys <$> header_of h x /\
     forall l, Header x <> Some l -> h' !! l = h !! l).
Proof.
  unfold header_of. destruct x as [[l|] body method url]; simpl; split.
  - intros _. eexists. split; [reflexivity | split].
    + rewrite lookup_total_insert_eq. reflexivity.
    + intros l' Hne. apply lookup_insert_ne. congruence.
  - destruct (Header_Del_fold l keys h) as [Hl Hframe].
    eexists. split; [reflexivity | split].
    + f_equal. exact Hl.
    + intros l' Hne. apply Hframe. congruence.
  - intros [l Hl]. discriminate.
  - exists h. rewrite Header_Del_fold_nil. repeat split; reflexivity.
Qed.

(** C10. On a request with a header map, [RequestAddHeaderValue k v]
    returns the request with [v] put after the values the map had for
    [k], all of which stay, in their order; the values of every other key
    stay too. *)
Theorem RequestAddHeaderValue_appends (k v : string) (x : Request)
    (h : Headers) (l : loc) (vs : list string) :
  Header x = Some l ->
  Values (h !!! l) k = vs ->
  exists h',
    call (RequestAddHeaderValue k v) x h = Ok (x, h') /\
    Values (h' !!! l) k = vs ++ [v] /\
    forall k', CanonicalMIMEHeaderKey k' <> CanonicalMIMEHeaderKey k ->
      Values (h' !!! l) k' = Values (h !!! l) k'.
Proof.
  intros Hl <-. simpl. rewrite Hl. simpl.
  eexists. split; [reflexivity |].
  rewrite lookup_total_insert_eq. split.
  - apply Values_header_add_eq.
  - intros k' Hne. apply Values_header_add_ne. exact Hne.
Qed.
End HeaderProperties.

(** ** Slices over shared arrays *)

Section Windows.
Context {T : Type}.
Implicit Types (arr vs : list T) (o n : nat).

Lemma length_write_at i vs arr :
  i + length vs <= length arr -> length (write_at i vs arr) = length arr.
Proof.
  intros Hle. unfold write_at.
  rewrite !length_app, length_take, length_drop. lia.
Qed.

Lemma drop_write_at o n vs arr :
  o + n <= length arr ->
  drop o (write_at (o + n) vs arr) =
  take n (drop o arr) ++ vs ++ drop (o + n + length vs) arr.
Proof.
  intros Hle. unfold write_at.
  rewrite drop_app_le by (rewrite length_take; lia).
  rewrite <- take_drop_commute. reflexivity.
Qed.

(** Writing after the [n]-th element of a window leaves the window. *)
Lemma window_write_at_before o n vs arr :
  o + n <= length arr ->
  take n (drop o (write_at (o + n) vs arr)) = take n (drop o arr).
Proof.
  intros Hle. rewrite drop_write_at by exact Hle.
  rewrite take_app_le by (rewrite length_take, length_drop; lia).
  rewrite take_take. f_equal. lia.
Qed.

(** The window extended over what was written. *)
Lemma window_write_at_extended o n vs arr :
  o + n <= length arr ->
  take (n + length vs) (drop o (write_at (o + n) vs arr)) =
  take n (drop o arr) ++ vs.
Proof.
  intros Hle. rewrite drop_write_at by exact Hle.
  rewrite take_app_add' by (rewrite length_take, length_drop; lia).
  rewrite take_app_length. reflexivity.
Qed.
End Windows.

Lemma lookup_total_unallocated (A : Arrays) (l : loc) :
  l ∉ dom A -> A !!! l = [].
Proof.
  intros Hl. apply not_elem_of_dom in Hl.
  rewrite lookup_total_alt, Hl. reflexivity.
Qed.

Lemma wf_slice_length (A : Arrays) (r : RequestFilters) :
  wf_slice A r -> length (elems A r) = len r.
Proof.
  intros [Hlen Harr]. unfold elems. destruct (array r) as [l|].
  - rewrite length_take, length_drop. lia.
  - simpl. lia.
Qed.

(** A slice over an array that does not exist is empty. *)
Lemma wf_slice_unallocated (A : Arrays) (r : RequestFilters) (l : loc) :
  wf_slice A r -> array r = Some l -> l ∉ dom A ->
  len r = 0 /\ cap r = 0 /\ offset r = 0.
Proof.
  intros [Hlen Harr] Hl Hdom. rewrite Hl in Harr.
  rewrite (lookup_total_unallocated A l Hdom) in Harr. simpl in Harr. lia.
Qed.

(** A slice reads the same, and stays well formed, in a store that agrees
    with the old one on the arrays that existed, when its own array is not
    the one that was written. *)
Lemma elems_frame (A A' : Arrays) (r : RequestFilters) :
  wf_slice A r ->
  (forall l, array r = Some l -> l ∈ dom A -> A' !! l = A !! l) ->
  elems A' r = elems A r /\ wf_slice A' r.
Proof.
  intros Hwf Hsame. unfold elems, wf_slice.
  destruct (array r) as [l|] eqn:Hl.
  - destruct (decide (l ∈ dom A)) as [Hin|Hout].
    + rewrite !(lookup_total_alt _ l), (Hsame l eq_refl Hin).
      split; [reflexivity |].
      destruct Hwf as [Hlen Harr]. rewrite Hl, lookup_total_alt in Harr.
      split; assumption.
    + destruct (wf_slice_unallocated A r l Hwf Hl Hout) as (-> & -> & ->).
      rewrite !take_0. split; [reflexivity | split; lia].
  - destruct Hwf as [Hlen Harr]. rewrite Hl in Harr.
    split; [reflexivity | split; assumption].
Qed.

Section ChainProperties.
Context {rt : Runtime}.

(** What [append] returns holds the old elements followed by the new
    ones, and is well formed. *)
Lemma append_elems (A : Arrays) (s : RequestFilters)
    (vs : list RequestFilter) :
  wf_slice A s ->
  elems (append s vs A).2 (append s vs A).1 = elems A s ++ vs /\
  wf_slice (append s vs A).2 (append s vs A).1.
Proof.
  intros Hwf. pose proof (wf_slice_length A s Hwf) as Hn.
  destruct Hwf as [Hlen Harr]. unfold append.
  destruct (decide (len s + length vs <= cap s)) as [Hfit|Hgrow];
    unfold elems, wf_slice in *; simpl.
  - destruct (array s) as [l|].
    + rewrite lookup_total_insert_eq.
      rewrite window_write_at_extended by lia.
      split; [reflexivity |].
      rewrite length_write_at by lia. lia.
    + assert (vs = []) as -> by (apply length_zero_iff_nil; lia).
      split; [reflexivity | simpl; lia].
  - rewrite lookup_total_insert_eq, drop_0.
    rewrite app_assoc, take_app_length' by (rewrite length_app; lia).
    split; [reflexivity |].
    rewrite !length_app, length_replicate. lia.
Qed.

(** The slice that was appended to still reads as before. *)
Lemma append_self (A : Arrays) (s : RequestFilters)
    (vs : list RequestFilter) :
  wf_slice A s -> elems (append s vs A).2 s = elems A s.
Proof.
  intros Hwf. unfold append.
  destruct (decide (len s + length vs <= cap s)) as [Hfit|Hgrow]; simpl.
  - destruct Hwf as [Hlen Harr]. unfold elems.
    destruct (array s) as [l|]; [| reflexivity].
    rewrite lookup_total_insert_eq. apply window_write_at_before. lia.
  - apply elems_frame; [exact Hwf |].
    intros l _ Hin. apply lookup_insert_ne.
    intros <-. exact (is_fresh (dom A) Hin).
Qed.

(** [append] writes to the array of its slice or to a new one. *)
Lemma append_frame (A : Arrays) (s : RequestFilters)
    (vs : list RequestFilter) (l : loc) :
  l ∈ dom A -> array s <> Some l -> (append s vs A).2 !! l = A !! l.
Proof.
  intros Hin Hne. unfold append.
  destruct (decide (len s + length vs <= cap s)) as [Hfit|Hgrow]; simpl.
  - destruct (array s) as [l0|]; [| reflexivity].
    apply lookup_insert_ne. congruence.
  - apply lookup_insert_ne. intros <-. exact (is_fresh (dom A) Hin).
Qed.

Lemma append_array (A : Arrays) (s : RequestFilters)
    (vs : list RequestFilter) :
  array (append s vs A).1 = array s \/
  exists l, array (append s vs A).1 = Some l /\ (l ∉ dom A).
Proof.
  unfold append.
  destruct (decide (len s + length vs <= cap s)) as [Hfit|Hgrow]; simpl.
  - left. reflexivity.
  - right. eexists. split; [reflexivity | apply is_fresh].
Qed.

Lemma append_dom (A : Arrays) (s : RequestFilters)
    (vs : list RequestFilter) (l : loc) :
  l ∈ dom A -> l ∈ dom (append s vs A).2.
Proof.
  intros Hin. unfold append.
  destruct (decide (len s + length vs <= cap s)) as [Hfit|Hgrow]; simpl.
  - destruct (array s) as [l0|]; [| exact Hin].
    rewrite dom_insert_L. set_solver.
  - rewrite dom_insert_L. set_solver.
Qed.

(** C7. For a chain [r] as Go keeps it, [r.Append(fs...)] returns a chain
    whose elements are those of [r] followed by those of [fs], in order,
    and [r] holds after the call the elements it held before. *)
Theorem Append_elems (A A' : Arrays) (r fs d : RequestFilters) :
  wf_slice A r ->
  Append r fs A = (d, A') ->
  elems A' d = elems A r ++ elems A fs /\
  elems A' r = elems A r.
Proof.
  intros Hwf Happ. unfold Append in Happ.
  pose proof (append_elems A r (elems A fs) Hwf) as [Hd _].
  pose proof (append_self A r (elems A fs) Hwf) as Hr.
  rewrite Happ in Hd, Hr. simpl in Hd, Hr. split; assumption.
Qed.

Lemma make_fresh (A : Arrays) (n c : nat) :
  exists l, (l ∉ dom A) /\
    make n c A = (mkSlice (Some l) 0 n c, <[l := replicate c None]> A).
Proof. eexists. split; [apply is_fresh | reflexivity]. Qed.

(** C8. For chains [r] and [fs] as Go keeps them, [r.Prepend(fs...)]
    returns a chain over a new array whose elements are those of [fs]
    followed by those of [r], in order; no array that existed is written
    to, and [r] holds after the call the elements it held before. *)
Theorem Prepend_elems (A A' : Arrays) (r fs d : RequestFilters) :
  wf_slice A r ->
  wf_slice A fs ->
  Prepend r fs A = (d, A') ->
  elems A' d = elems A fs ++ elems A r /\
  elems A' r = elems A r /\
  (exists l, array d = Some l /\ (l ∉ dom A)) /\
  (forall l, l ∈ dom A -> A' !! l = A !! l).
Proof.
  intros Hr Hfs Hpre. unfold Prepend in Hpre.
  destruct (make_fresh A 0 (len fs + len r)) as (l0 & Hl0 & Hmk).
  rewrite Hmk in Hpre. clear Hmk.
  set (dst0 := mkSlice (Some l0) 0 0 (len fs + len r)) in *.
  set (A1 := <[l0 := replicate (len fs + len r) None]> A) in *.
  assert (HA1 : forall l, l ∈ dom A -> A1 !! l = A !! l /\ l ∈ dom A1).
  { intros l Hin. unfold A1. rewrite dom_insert_L. split; [| set_solver].
    apply lookup_insert_ne. intros <-. contradiction. }
  assert (Hdst0 : wf_slice A1 dst0).
  { unfold wf_slice, dst0, A1. simpl.
    rewrite lookup_total_insert_eq, length_replicate. lia. }
  destruct (elems_frame A A1 fs Hfs) as [Hfs1 _].
  { intros l _ Hin. apply HA1, Hin. }
  pose proof (append_elems A1 dst0 (elems A1 fs) Hdst0) as [Hd1 Hwf1].
  pose proof (append_array A1 dst0 (elems A1 fs)) as Harr1.
  pose proof (fun l => append_frame A1 dst0 (elems A1 fs) l) as Hfr1.
  pose proof (fun l => append_dom A1 dst0 (elems A1 fs) l) as Hdom1.
  destruct (append dst0 (elems A1 fs) A1) as [dst1 A2]. simpl in *.
  assert (Hnew1 : exists l, array dst1 = Some l /\ (l ∉ dom A)).
  { destruct Harr1 as [->|(l & -> & Hl)].
    - exists l0. split; [reflexivity | exact Hl0].
    - exists l. split; [reflexivity |]. intros Hin. apply Hl, HA1, Hin. }
  assert (HA2 : forall l, l ∈ dom A -> A2 !! l = A !! l /\ l ∈ dom A2).
  { intros l Hin. destruct (HA1 l Hin) as [Hsame Hin1]. split.
    - rewrite Hfr1; [exact Hsame | exact Hin1 |].
      intros [= <-]. contradiction.
    - apply Hdom1, Hin1. }
  destruct (elems_frame A A2 r Hr) as [Hr2 _].
  { intros l _ Hin. apply HA2, Hin. }
  pose proof (append_elems A2 dst1 (elems A2 r) Hwf1) as [Hd2 _].
  pose proof (append_array A2 dst1 (elems A2 r)) as Harr2.
  pose proof (fun l => append_frame A2 dst1 (elems A2 r) l) as Hfr2.
  rewrite Hpre in Hd2, Harr2, Hfr2. simpl in *.
  assert (HA' : forall l, l ∈ dom A -> A' !! l = A !! l).
  { intros l Hin. destruct (HA2 l Hin) as [Hsame Hin2].
    rewrite Hfr2; [exact Hsame | exact Hin2 |].
    destruct Hnew1 as (l1 & -> & Hl1). intros [= <-].
    contradiction. }
  split; [| split; [| split]].
  - rewrite Hd2, Hd1, Hr2, Hfs1. reflexivity.
  - apply (elems_frame A A' r Hr). intros l _ Hin. apply HA', Hin.
  - destruct Harr2 as [->|(l & -> & Hl)].
    + exact Hnew1.
    + exists l. split; [reflexivity |]. intros Hin. apply Hl, HA2, Hin.
  - exact HA'.
Qed.
End ChainProperties.


(** * Further properties *)

(** ** Deleting and adding header values *)

Section HeaderFilters.
Context {imp : Imports}.

Lemma RequestDeleteHeaderKeys_call (keys : list string) (x : Request)
    (h : Headers) :
  call (RequestDeleteHeaderKeys keys) x h =
  Ok (x, fold_left (fun h' key => Header_Del (Header x) key h') keys h).
Proof. reflexivity. Qed.

Lemma RequestAddHeaderValue_call (k v : string) (x : Request) (h : Headers)
    (l : loc) :
  Header x = Some l ->
  call (RequestAddHeaderValue k v) x h =
  Ok (x, <[l := header_add k v (h !!! l)]> h).
Proof. intros Hl. simpl. rewrite Hl. reflexivity. Qed.

(** The loop of [RequestDeleteHeaderKeys] with at least one key, in one
    step: the map behind [l] is replaced by the map without the keys. *)
Lemma Header_Del_fold_insert (l : loc) (keys : list string) (h : Headers) :
  keys <> [] ->
  fold_left (fun h' key => Header_Del (Some l) key h') keys h =
  <[l := fold_left (fun hd key => header_del key hd) keys (h !!! l)]> h.
Proof.
  revert h. induction keys as [|key keys IH]; intros h Hne; [contradiction |].
  destruct keys as [|key' keys].
  - reflexivity.
  - change (fold_left (fun h' k => Header_Del (Some l) k h') (key' :: keys)
              (Header_Del (Some l) key h) =
            <[l := fold_left (fun hd k => header_del k hd) (key' :: keys)
                     (header_del key (h !!! l))]> h).
    rewrite IH by discriminate. unfold Header_Del at 1 2.
    rewrite lookup_total_insert_eq, insert_insert_eq. reflexivity.
Qed.

(** Deleting keys from a map that has lost them already changes nothing. *)
Lemma header_del_fold_idemp (keys : list string) (hd : http_Header) :
  let hd' := fold_left (fun hd key => header_del key hd) keys hd in
  fold_left (fun hd key => header_del key hd) keys hd' = hd'.
Proof.
  simpl. apply map_eq. intros k. rewrite !header_del_fold_lookup.
  destruct (bool_decide _); reflexivity.
Qed.

(** X1. [RequestDeleteHeaderKeys] returns the request it was given; in the
    header map of the request no entry is left under the canonical form of
    any of the keys, and every entry under another key is as it was. *)
Theorem RequestDeleteHeaderKeys_removes (keys : list string) (x : Request)
    (h : Headers) (l : loc) :
  Header x = Some l ->
  exists h',
    call (RequestDeleteHeaderKeys keys) x h = Ok (x, h') /\
    (forall k, k ∈ keys -> (h' !!! l) !! CanonicalMIMEHeaderKey k = None /\
                           Values (h' !!! l) k = []) /\
    (forall ck, ck ∉ map CanonicalMIMEHeaderKey keys ->
       (h' !!! l) !! ck = (h !!! l) !! ck).
Proof.
  intros Hl. rewrite RequestDeleteHeaderKeys_call, Hl.
  eexists. split; [reflexivity |].
  destruct (Header_Del_fold l keys h) as [-> _].
  split.
  - intros k Hk. unfold Values. rewrite header_del_fold_lookup.
    rewrite bool_decide_eq_true_2; [split; reflexivity |].
    apply list_elem_of_fmap. exists k. split; [reflexivity | exact Hk].
  - intros ck Hck. rewrite header_del_fold_lookup.
    rewrite bool_decide_eq_false_2 by exact Hck. reflexivity.
Qed.

(** X2. [RequestDeleteHeaderKeys] never panics, and deleting what is not
    there is no change: when the header map has no entry under the canonical
    form of any of the keys (so also without keys), the request reads the
    same header after the call; on a request with the nil header map, and
    without keys, the store is returned as it was. *)
Theorem RequestDeleteHeaderKeys_absent (keys : list string) (x : Request)
    (h : Headers) :
  (forall l k, Header x = Some l -> k ∈ keys ->
     (h !!! l) !! CanonicalMIMEHeaderKey k = None) ->
  exists h',
    call (RequestDeleteHeaderKeys keys) x h = Ok (x, h') /\
    header_of h' x = header_of h x /\
    (Header x = None \/ keys = [] -> h' = h).
Proof.
  intros Habs. rewrite RequestDeleteHeaderKeys_call.
  eexists. split; [reflexivity |]. unfold header_of.
  destruct (Header x) as [l|] eqn:Hl; cbn [fmap option_fmap option_map].
  - split.
    + f_equal. destruct (Header_Del_fold l keys h) as [-> _].
      apply map_eq. intros ck. rewrite header_del_fold_lookup.
      destruct (bool_decide_reflect (ck ∈ map CanonicalMIMEHeaderKey keys))
        as [Hin|Hout]; [| reflexivity].
      apply list_elem_of_fmap in Hin as (k & -> & Hk).
      symmetry. apply (Habs l k eq_refl Hk).
    + intros [Hnil| ->]; [discriminate | reflexivity].
  - rewrite Header_Del_fold_nil. split; [reflexivity | intros _; reflexivity].
Qed.

(** X3. [RequestDeleteHeaderKeys] is idempotent: run again on what it
    returned, it returns the same request and the same store. *)
Theorem RequestDeleteHeaderKeys_idempotent (keys : list string) (x : Request)
    (h h1 : Headers) (y : Request) :
  call (RequestDeleteHeaderKeys keys) x h = Ok (y, h1) ->
  call (RequestDeleteHeaderKeys keys) y h1 = Ok (y, h1).
Proof.
  rewrite !RequestDeleteHeaderKeys_call. intros [= <- <-]. f_equal. f_equal.
  destruct (Header x) as [l|]; [| rewrite !Header_Del_fold_nil; reflexivity].
  destruct keys as [|key keys]; [reflexivity |].
  rewrite !(Header_Del_fold_insert l (key :: keys)) by discriminate.
  rewrite lookup_total_insert_eq, insert_insert_eq.
  f_equal. apply header_del_fold_idemp.
Qed.

(** X4. Only the set of canonical keys matters to
    [RequestDeleteHeaderKeys]: two key lists with the same canonical forms,
    in any order, with or without repetitions and whatever the spelling,
    give filters with the same outcome. *)
Theorem RequestDeleteHeaderKeys_same_keys (keys1 keys2 : list string)
    (x : Request) (h : Headers) :
  (forall ck, ck ∈ map CanonicalMIMEHeaderKey keys1 <->
              ck ∈ map CanonicalMIMEHeaderKey keys2) ->
  call (RequestDeleteHeaderKeys keys1) x h =
  call (RequestDeleteHeaderKeys keys2) x h.
Proof.
  intros Hsame. rewrite !RequestDeleteHeaderKeys_call. f_equal. f_equal.
  destruct (Header x) as [l|]; [| rewrite !Header_Del_fold_nil; reflexivity].
  destruct keys1 as [|k1 keys1], keys2 as [|k2 keys2].
  - reflexivity.
  - exfalso. apply (not_elem_of_nil (CanonicalMIMEHeaderKey k2)).
    apply Hsame. simpl. apply list_elem_of_here.
  - exfalso. apply (not_elem_of_nil (CanonicalMIMEHeaderKey k1)).
    apply Hsame. simpl. apply list_elem_of_here.
  - rewrite !Header_Del_fold_insert by discriminate. f_equal.
    apply map_eq. intros ck. rewrite !header_del_fold_lookup.
    rewrite (bool_decide_ext _ _ (Hsame ck)). reflexivity.
Qed.

(** X5. Adding a value and then deleting its key leaves no entry for the
    key; when the header had no entry for it, the header map is again what
    it was before the two filters ran. *)
Theorem add_then_delete (k v : string) (x : Request) (h : Headers) (l : loc) :
  Header x = Some l ->
  exists h',
    range_loop [RequestAddHeaderValue k v; RequestDeleteHeaderKeys [k]] x h
      = Ok (x, h') /\
    h' !!! l = header_del k (h !!! l) /\
    ((h !!! l) !! CanonicalMIMEHeaderKey k = None -> h' !!! l = h !!! l).
Proof.
  intros Hl. cbn [range_loop]. unfold bind.
  rewrite (RequestAddHeaderValue_call k v x h l Hl).
  unfold bind, ret. rewrite RequestDeleteHeaderKeys_call, Hl.
  cbn [fold_left]. unfold Header_Del.
  eexists. split; [reflexivity |].
  rewrite !lookup_total_insert_eq. unfold header_del, header_add.
  rewrite delete_insert_eq. split; [reflexivity |].
  intros Hnone. apply delete_id. exact Hnone.
Qed.

(** X6. Header keys that differ only in spelling share one entry: two
    [RequestAddHeaderValue] filters whose keys have the same canonical form
    leave, under either key, the old values followed by the two new ones in
    the order of the filters. Nothing is overwritten or deduplicated. *)
Theorem add_twice_accumulates (k1 k2 v1 v2 : string) (x : Request)
    (h : Headers) (l : loc) :
  Header x = Some l ->
  CanonicalMIMEHeaderKey k1 = CanonicalMIMEHeaderKey k2 ->
  exists h',
    range_loop [RequestAddHeaderValue k1 v1; RequestAddHeaderValue k2 v2] x h
      = Ok (x, h') /\
    Values (h' !!! l) k1 = Values (h !!! l) k1 ++ [v1; v2] /\
    Values (h' !!! l) k2 = Values (h !!! l) k1 ++ [v1; v2].
Proof.
  intros Hl Hk. cbn [range_loop]. unfold bind.
  rewrite (RequestAddHeaderValue_call k1 v1 x h l Hl).
  rewrite (RequestAddHeaderValue_call k2 v2 x _ l Hl).
  eexists. split; [reflexivity |].
  rewrite !lookup_total_insert_eq.
  assert (Hv : Values (header_add k2 v2 (header_add k1 v1 (h !!! l))) k2
               = Values (h !!! l) k1 ++ [v1; v2]).
  { rewrite Values_header_add_eq. unfold Values at 1. rewrite <- Hk.
    fold (Values (header_add k1 v1 (h !!! l)) k1).
    rewrite Values_header_add_eq, <- app_assoc. reflexivity. }
  split; [| exact Hv].
  unfold Values at 1. rewrite Hk. exact Hv.
Qed.

(** X19. On a request whose header is the nil map, [RequestAddHeaderValue]
    panics, since it assigns to an entry of the map, and does so only when
    it is reached: under a method guard for another method the request is
    returned. [RequestDeleteHeaderKeys] returns the request and the store
    as they are, whatever the keys. *)
Theorem nil_header (k v m : string) (keys : list string) (x : Request)
    (h : Headers) :
  Header x = None ->
  call (RequestAddHeaderValue k v) x h = Panic "assignment to entry in nil map" /\
  (Method x <> m ->
   call (OnMethod (RequestAddHeaderValue k v) m) x h = Ok (x, h)) /\
  call (RequestDeleteHeaderKeys keys) x h = Ok (x, h).
Proof.
  intros Hnil. split; [| split].
  - cbn [call RequestAddHeaderValue]. rewrite Hnil. reflexivity.
  - intros Hm. rewrite OnMethod_call.
    destruct (String.eqb_spec (Method x) m); [contradiction | reflexivity].
  - rewrite RequestDeleteHeaderKeys_call, Hnil, Header_Del_fold_nil.
    reflexivity.
Qed.
End HeaderFilters.

(** ** Guards on guards *)

Section GuardComposition.
Context {imp : Imports}.

(** X7. Guarding by method twice: with two different methods the filter is
    never applied, whatever the request, and with the same method the
    second guard adds nothing. *)
Theorem OnMethod_nested (f : RequestFilter) (m1 m2 : string) (x : Request)
    (h : Headers) :
  (m1 <> m2 -> call (OnMethod (OnMethod f m1) m2) x h = Ok (x, h)) /\
  (m1 = m2 ->
   call (OnMethod (OnMethod f m1) m2) x h = call (OnMethod f m1) x h).
Proof.
  rewrite !OnMethod_call. split.
  - intros Hne.
    destruct (String.eqb_spec (Method x) m2) as [He2|_]; [| reflexivity].
    destruct (String.eqb_spec (Method x) m1) as [He1|_]; [| reflexivity].
    congruence.
  - intros <-.
    destruct (String.eqb (Method x) m1); reflexivity.
Qed.

(** X8. The method guard and the path guard can be put on in either
    order: [f.OnMethod(m).OnPath(p)] and [f.OnPath(p).OnMethod(m)] are
    built or fail together, and when built do the same on every request:
    [f] is applied when both the method is [m] and the pattern matches the
    URL, and the request is returned unchanged otherwise. *)
Theorem OnMethod_OnPath_commute (f : RequestFilter) (m p : string) :
  (exists msg, OnPath (OnMethod f m) p = Panic msg /\
               OnPath f p = Panic msg) \/
  (exists g1 g2 re,
     Compile (effective_pattern p) = Some re /\
     OnPath (OnMethod f m) p = Ok g1 /\ OnPath f p = Ok g2 /\
     forall x h,
       call g1 x h = call (OnMethod g2 m) x h /\
       call g1 x h =
         if String.eqb (Method x) m && MatchString re (URL_String (URL x))
         then call f x h else Ok (x, h)).
Proof.
  destruct (Compile (effective_pattern p)) as [re|] eqn:Hc.
  - right. eexists _, _, re. split; [reflexivity |].
    split; [apply (OnPath_compiled _ p re Hc) |].
    split; [apply (OnPath_compiled _ p re Hc) |].
    intros x h. rewrite OnMethod_call. cbn [call].
    rewrite OnMethod_call.
    destruct (String.eqb (Method x) m),
             (MatchString re (URL_String (URL x))); split; reflexivity.
  - left. unfold OnPath, MustCompile. fold (effective_pattern p).
    rewrite Hc. eexists. split; reflexivity.
Qed.
End GuardComposition.

(** ** Chains and their arrays *)

Section ChainInvariants.
Context {rt : Runtime}.

Lemma append_fits (A : Arrays) (s : RequestFilters) (vs : list RequestFilter) :
  len s + length vs <= cap s ->
  (append s vs A).1 = mkSlice (array s) (offset s) (len s + length vs) (cap s).
Proof.
  intros Hfit. unfold append.
  destruct (decide (len s + length vs <= cap s)); [reflexivity | contradiction].
Qed.

Lemma append_moves (A : Arrays) (s : RequestFilters) (vs : list RequestFilter) :
  cap s < len s + length vs ->
  exists l, (l ∉ dom A) /\ array (append s vs A).1 = Some l /\
    offset (append s vs A).1 = 0 /\
    forall l', l' ∈ dom A -> (append s vs A).2 !! l' = A !! l'.
Proof.
  intros Hfull. unfold append.
  destruct (decide (len s + length vs <= cap s)); [lia |]. simpl.
  exists (fresh (dom A)). split; [apply is_fresh |].
  split; [reflexivity | split; [reflexivity |]].
  intros l' Hin. apply lookup_insert_ne. intros <-. exact (is_fresh (dom A) Hin).
Qed.

Lemma append_len (A : Arrays) (s : RequestFilters) (vs : list RequestFilter) :
  len (append s vs A).1 = len s + length vs.
Proof.
  unfold append. destruct (decide (len s + length vs <= cap s)); reflexivity.
Qed.

(** The slice that was appended to stays well formed. *)
Lemma append_self_wf (A : Arrays) (s : RequestFilters)
    (vs : list RequestFilter) :
  wf_slice A s -> wf_slice (append s vs A).2 s.
Proof.
  intros Hwf. unfold append.
  destruct (decide (len s + length vs <= cap s)) as [Hfit|Hgrow]; simpl.
  - destruct Hwf as [Hlen Harr]. unfold wf_slice.
    destruct (array s) as [l|]; [| split; assumption].
    rewrite lookup_total_insert_eq, length_write_at by lia.
    split; assumption.
  - refine (proj2 (elems_frame A _ s Hwf _)).
    intros l _ Hin. apply lookup_insert_ne.
    intros <-. exact (is_fresh (dom A) Hin).
Qed.

(** [Prepend], step by step: its two [append]s fit in the array it made. *)
Lemma Prepend_inv (A : Arrays) (r fs : RequestFilters) :
  wf_slice A r ->
  wf_slice A fs ->
  exists l0, (l0 ∉ dom A) /\
    (Prepend r fs A).1 = mkSlice (Some l0) 0 (len fs + len r) (len fs + len r) /\
    elems (Prepend r fs A).2 (Prepend r fs A).1 = elems A fs ++ elems A r /\
    wf_slice (Prepend r fs A).2 (Prepend r fs A).1 /\
    forall l, l ∈ dom A -> (Prepend r fs A).2 !! l = A !! l.
Proof.
  intros Hr Hfs. unfold Prepend.
  destruct (make_fresh A 0 (len fs + len r)) as (l0 & Hl0 & ->).
  exists l0. split; [exact Hl0 |].
  set (dst0 := mkSlice (Some l0) 0 0 (len fs + len r)).
  set (A1 := <[l0 := replicate (len fs + len r) None]> A).
  assert (HA1 : forall l, l ∈ dom A -> A1 !! l = A !! l /\ l ∈ dom A1).
  { intros l Hin. unfold A1. rewrite dom_insert_L. split; [| set_solver].
    apply lookup_insert_ne. intros <-. contradiction. }
  assert (Hdst0 : wf_slice A1 dst0).
  { unfold wf_slice, dst0, A1. simpl.
    rewrite lookup_total_insert_eq, length_replicate. lia. }
  destruct (elems_frame A A1 fs Hfs) as [Hfs1 _].
  { intros l _ Hin. apply HA1, Hin. }
  rewrite Hfs1.
  pose proof (wf_slice_length A fs Hfs) as Hnfs.
  pose proof (wf_slice_length A r Hr) as Hnr.
  pose proof (append_elems A1 dst0 (elems A fs) Hdst0) as [Hd1 Hwf1].
  pose proof (fun l => append_frame A1 dst0 (elems A fs) l) as Hfr1.
  pose proof (fun l => append_dom A1 dst0 (elems A fs) l) as Hdom1.
  pose proof (append_fits A1 dst0 (elems A fs)) as Hfit1.
  destruct (append dst0 (elems A fs) A1) as [dst1 A2]. simpl in *.
  assert (dst1 = mkSlice (Some l0) 0 (length (elems A fs)) (len fs + len r))
    as -> by (apply Hfit1; lia).
  clear Hfit1.
  assert (HA2 : forall l, l ∈ dom A -> A2 !! l = A !! l /\ l ∈ dom A2).
  { intros l Hin. destruct (HA1 l Hin) as [Hsame Hin1]. split.
    - rewrite Hfr1; [exact Hsame | exact Hin1 |].
      intros [= <-]. contradiction.
    - apply Hdom1, Hin1. }
  destruct (elems_frame A A2 r Hr) as [Hr2 _].
  { intros l _ Hin. apply HA2, Hin. }
  rewrite Hr2.
  set (dst1 := mkSlice (Some l0) 0 (length (elems A fs)) (len fs + len r)) in *.
  pose proof (append_elems A2 dst1 (elems A r) Hwf1) as [Hd2 Hwf2].
  pose proof (fun l => append_frame A2 dst1 (elems A r) l) as Hfr2.
  pose proof (append_fits A2 dst1 (elems A r)) as Hfit2.
  destruct (append dst1 (elems A r) A2) as [d A']. simpl in *.
  split; [rewrite Hfit2 by lia; f_equal; lia |].
  split; [rewrite Hd2, Hd1; reflexivity |].
  split; [exact Hwf2 |].
  intros l Hin. destruct (HA2 l Hin) as [Hsame Hin2].
  rewrite Hfr2; [exact Hsame | exact Hin2 |].
  intros [= <-]. contradiction.
Qed.


(** X10. [Append] keeps chains well formed: for well-formed [r] and [fs]
    the chain returned is well formed and has [len(r) + len(fs)] elements,
    and [r] is still well formed. *)
Theorem Append_well_formed (A A' : Arrays) (r fs d : RequestFilters) :
  wf_slice A r ->
  wf_slice A fs ->
  Append r fs A = (d, A') ->
  wf_slice A' d /\ wf_slice A' r /\ len d = len r + len fs.
Proof.
  intros Hr Hfs Happ. unfold Append in Happ.
  pose proof (append_elems A r (elems A fs) Hr) as [_ Hwfd].
  pose proof (append_self_wf A r (elems A fs) Hr) as Hwfr.
  pose proof (append_len A r (elems A fs)) as Hlen.
  rewrite Happ in Hwfd, Hwfr, Hlen. simpl in *.
  rewrite (wf_slice_length A fs Hfs) in Hlen.
  split; [exact Hwfd | split; [exact Hwfr | exact Hlen]].
Qed.

(** X11. [Append] to a chain with room in its array writes into that
    array: two [Append]s of as many filters to the same chain return the
    same slice, and what the first one returned reads, after the second, the
    filters of the second. The chain appended to is not modified, but a
    chain that [Append] returned earlier is. *)
Theorem Append_overwrites_earlier_result (A : Arrays)
    (r fs gs : RequestFilters) :
  wf_slice A r ->
  len r + length (elems A fs) <= cap r ->
  length (elems (Append r fs A).2 gs) = length (elems A fs) ->
  (Append r gs (Append r fs A).2).1 = (Append r fs A).1 /\
  array (Append r fs A).1 = array r /\
  elems (Append r fs A).2 (Append r fs A).1 = elems A r ++ elems A fs /\
  elems (Append r gs (Append r fs A).2).2 (Append r fs A).1
    = elems A r ++ elems (Append r fs A).2 gs.
Proof.
  intros Hr Hfit Hsame. unfold Append in *.
  pose proof (append_elems A r (elems A fs) Hr) as [Hd1 _].
  pose proof (append_self A r (elems A fs) Hr) as Hr1.
  pose proof (append_self_wf A r (elems A fs) Hr) as Hwf1.
  pose proof (append_fits A r (elems A fs) Hfit) as Hs1.
  set (B := (append r (elems A fs) A).2) in *.
  pose proof (append_elems B r (elems B gs) Hwf1) as [Hd2 _].
  pose proof (append_fits B r (elems B gs)) as Hs2.
  rewrite Hsame in Hs2. specialize (Hs2 Hfit).
  split; [congruence |]. split; [rewrite Hs1; reflexivity |].
  split; [exact Hd1 |].
  rewrite Hs1, <- Hs2, Hd2, Hr1. reflexivity.
Qed.

(** X12. [Append] to a chain without room for the new filters copies:
    the chain returned starts a new array, and no array that existed is
    written to, so no chain that existed reads differently. *)
Theorem Append_full_copies (A A' : Arrays) (r fs d : RequestFilters) :
  cap r < len r + length (elems A fs) ->
  Append r fs A = (d, A') ->
  (exists l, array d = Some l /\ (l ∉ dom A)) /\
  offset d = 0 /\
  (forall l, l ∈ dom A -> A' !! l = A !! l) /\
  (forall t, wf_slice A t -> elems A' t = elems A t).
Proof.
  intros Hfull Happ. unfold Append in Happ.
  destruct (append_moves A r (elems A fs) Hfull) as (l & Hl & Harr & Hoff & Hfr).
  rewrite Happ in Harr, Hoff, Hfr. simpl in *.
  split; [exists l; split; assumption |].
  split; [exact Hoff |]. split; [exact Hfr |].
  intros t Ht. apply (elems_frame A A' t Ht). intros l' _ Hin. apply Hfr, Hin.
Qed.

(** X13. [Prepend] returns a well-formed chain that fills its array
    exactly: it starts at index 0 and its length and its capacity are both
    [len(fs) + len(r)]. *)
Theorem Prepend_exactly_sized (A A' : Arrays) (r fs d : RequestFilters) :
  wf_slice A r ->
  wf_slice A fs ->
  Prepend r fs A = (d, A') ->
  wf_slice A' d /\ offset d = 0 /\
  len d = len fs + len r /\ cap d = len fs + len r.
Proof.
  intros Hr Hfs Hpre.
  destruct (Prepend_inv A r fs Hr Hfs) as (l0 & _ & Hd & _ & Hwf & _).
  rewrite Hpre in Hd, Hwf. simpl in *. subst d.
  split; [exact Hwf |]. repeat split; reflexivity.
Qed.
End ChainInvariants.

(** ** Combined filters of chains that were put together *)

Section CombinedChains.
Context {imp : Imports} {rt : Runtime}.

Lemma combined_call (A : Arrays) (r : RequestFilters) (x : Request) :
  call (combined A r) x = range_loop (elems A r) x.
Proof. reflexivity. Qed.

(** X14. The combined filter of [r.Append(fs...)] is the combined filter
    of [r] followed by the combined filter of [fs]: the second is given the
    request and the store the first left, and is not run when the first
    panics. *)
Theorem combined_Append (A A' : Arrays) (r fs d : RequestFilters)
    (x : Request) (h : Headers) :
  wf_slice A r ->
  Append r fs A = (d, A') ->
  call (combined A' d) x h =
  bind (call (combined A r) x) (call (combined A fs)) h.
Proof.
  intros Hr Happ. unfold Append in Happ.
  pose proof (append_elems A r (elems A fs) Hr) as [Hd _].
  rewrite Happ in Hd. simpl in Hd.
  rewrite !combined_call, Hd. apply range_loop_app.
Qed.

(** X15. The combined filter of [r.Prepend(fs...)] is the combined filter
    of [fs] followed by the combined filter of [r]. *)
Theorem combined_Prepend (A A' : Arrays) (r fs d : RequestFilters)
    (x : Request) (h : Headers) :
  wf_slice A r ->
  wf_slice A fs ->
  Prepend r fs A = (d, A') ->
  call (combined A' d) x h =
  bind (call (combined A fs) x) (call (combined A r)) h.
Proof.
  intros Hr Hfs Hpre.
  destruct (Prepend_inv A r fs Hr Hfs) as (_ & _ & _ & Hd & _).
  rewrite Hpre in Hd. simpl in Hd.
  rewrite !combined_call, Hd. apply range_loop_app.
Qed.

(** X16. A chain's combined filter does the same before and after the
    chain was appended or prepended to: the calls change neither the chain
    nor what it applies. *)
Theorem combined_unchanged (A A' : Arrays) (r fs d : RequestFilters)
    (x : Request) (h : Headers) :
  wf_slice A r ->
  wf_slice A fs ->
  Append r fs A = (d, A') \/ Prepend r fs A = (d, A') ->
  call (combined A' r) x h = call (combined A r) x h.
Proof.
  intros Hr Hfs [Happ|Hpre]; rewrite !combined_call; f_equal.
  - unfold Append in Happ.
    pose proof (append_self A r (elems A fs) Hr) as Hself.
    rewrite Happ in Hself. exact Hself.
  - destruct (Prepend_inv A r fs Hr Hfs) as (_ & _ & _ & _ & _ & Hfr).
    rewrite Hpre in Hfr. simpl in Hfr.
    apply (elems_frame A A' r Hr). intros l _ Hin. apply Hfr, Hin.
Qed.

(** X17. The combined filter stops at the first filter that panics (a nil
    filter in the chain is one): when the filters before it return and it
    panics on what they hand over, the combined filter panics with its
    message, whatever filters come after it. *)
Theorem combined_stops_at_panic (A : Arrays) (r : RequestFilters)
    (fs gs : list RequestFilter) (f : RequestFilter) (x y : Request)
    (h h1 : Headers) (msg : string) :
  elems A r = fs ++ f :: gs ->
  range_loop fs x h = Ok (y, h1) ->
  call f y h1 = Panic msg ->
  call (combined A r) x h = Panic msg.
Proof.
  intros Hr Hfs Hf. rewrite combined_call, Hr, range_loop_app.
  unfold bind. rewrite Hfs. cbn [range_loop]. unfold bind.
  rewrite Hf. reflexivity.
Qed.

Lemma Ok_inj {T : Type} (a b : T) : Ok a = Ok b -> a = b.
Proof. intros [= ->]. reflexivity. Qed.

Lemma guarded_call (re : Regexp) (f : RequestFilter) (x : Request)
    (h : Headers) :
  call (Some (fun req =>
          if negb (MatchString re (URL_String (URL req))) then ret req
          else call f req)) x h
  = if MatchString re (URL_String (URL x)) then call f x h else Ok (x, h).
Proof.
  cbn [call]. destruct (MatchString re (URL_String (URL x))); reflexivity.
Qed.

Lemma replacePath_call (x : Request) (h : Headers) :
  call Sample.replacePath x h
  = Ok (Sample.with_host_path "127.0.0.1" "/order/1234" x, h).
Proof. reflexivity. Qed.

(** X18. Example 7 adds [replacePath.OnPath("/order/")] to the
    configuration's chain, which starts as the nil chain. The combined
    filter of the chain then maps two requests that differ only in the host
    and the path of their URL, both matching the pattern, to one and the
    same request, whose host is [127.0.0.1] and whose path is
    [/order/1234], and leaves the header store alone. *)
Theorem example7_normalises (re : Regexp) (A : Arrays)
    (V : gmap loc RequestFilters) (cfg : loc) (args : RequestFilters)
    (g : RequestFilter) (x : Request) (host path : string) (h : Headers) :
  V !! cfg = None ->
  Compile "/order/" = Some re ->
  OnPath Sample.replacePath "/order/" = Ok g ->
  elems A args = [g] ->
  MatchString re (URL_String (URL x)) = true ->
  MatchString re (URL_String (URL (Sample.with_host_path host path x))) = true ->
  exists c,
    (Add cfg args V A).1 !! cfg = Some c /\
    call (combined (Add cfg args V A).2 c) x h
      = Ok (Sample.with_host_path "127.0.0.1" "/order/1234" x, h) /\
    call (combined (Add cfg args V A).2 c) (Sample.with_host_path host path x) h
      = Ok (Sample.with_host_path "127.0.0.1" "/order/1234" x, h).
Proof.
  intros Hcfg Hc Hg Hargs Hx Hx'.
  rewrite (OnPath_compiled Sample.replacePath "/order/" re Hc) in Hg.
  apply Ok_inj in Hg. subst g.
  unfold Add. rewrite Hcfg. cbn [default].
  assert (Hnil : wf_slice A nil_slice) by (split; [simpl; lia | reflexivity]).
  pose proof (append_elems A nil_slice (elems A args) Hnil) as [Hd _].
  destruct (append nil_slice (elems A args) A) as [c A'].
  simpl in Hd. cbn [fst snd]. exists c. rewrite lookup_insert_eq.
  split; [reflexivity |].
  rewrite !combined_call, Hd, Hargs.
  rewrite !range_loop_fold. unfold apply_spec. cbn [fold_left].
  rewrite !bind_ret_l, !guarded_call, Hx, Hx', !replacePath_call.
  split; reflexivity.
Qed.
End CombinedChains.

(** ** The filters on concrete requests

    Runs of the filters with the packages as implemented in [Go]. *)

Module Runs.
Import Sample.
#[local] Existing Instances Go.imports Go.runtime.

(** [.*] matches at the start of every text. *)
Lemma star_matches_everything (r : Go.re) (s : string) :
  Go.MatchString (Go.Star r) s = true.
Proof. destruct s; reflexivity. Qed.

Example Compile_dot_star : Go.Compile ".*" = Some (Go.Star Go.AnyCharNotNL).
Proof. reflexivity. Qed.

Example URL_String_get_order :
  URL_String (URL get_order) = "http://example.com/order/111".
Proof. reflexivity. Qed.

Lemma Compile_order : Compile "/order/" = Some re_order.
Proof. reflexivity. Qed.

Lemma Compile_order_anchored : Compile "^/order/" = Some re_order_anchored.
Proof. reflexivity. Qed.

(** [OnMethod_guard] on a GET and a POST request. *)
Lemma OnMethod_guard_witness :
  call (OnMethod add_test_header "POST") get_order h_empty
    = Ok (get_order, h_empty) /\
  call (OnMethod add_test_header "POST") post_order h_empty
    = call add_test_header post_order h_empty.
Proof.
  split.
  - apply (OnMethod_guard add_test_header "POST" get_order h_empty).
    discriminate.
  - apply (OnMethod_guard add_test_header "POST" post_order h_empty).
    reflexivity.
Defined.

(** [OnPath_guard] with the pattern of example 7. *)
Lemma OnPath_guard_witness :
  exists g, OnPath replacePath "/order/" = Ok g /\
    (MatchString re_order (URL_String (URL get_order)) = true ->
     call g get_order h_empty = call replacePath get_order h_empty) /\
    (MatchString re_order (URL_String (URL get_order)) = false ->
     call g get_order h_empty = Ok (get_order, h_empty)).
Proof.
  apply (OnPath_guard replacePath "/order/" re_order get_order h_empty).
  - discriminate.
  - reflexivity.
Defined.

Lemma Compile_example : Compile "example" = Some re_example.
Proof. reflexivity. Qed.

Lemma OnPath_order_anchored :
  OnPath replacePath "^/order/" = Ok (on_path re_order_anchored).
Proof.
  exact (OnPath_compiled replacePath "^/order/" re_order_anchored
           Compile_order_anchored).
Qed.

Lemma OnPath_example : OnPath replacePath "example" = Ok (on_path re_example).
Proof. exact (OnPath_compiled replacePath "example" re_example Compile_example). Qed.

Lemma anchored_matches_path :
  MatchString re_order_anchored (Path (URL get_order)) = true.
Proof. vm_compute. reflexivity. Qed.

Lemma anchored_misses_url :
  MatchString re_order_anchored (URL_String (URL get_order)) = false.
Proof. vm_compute. reflexivity. Qed.

Lemma example_misses_path :
  MatchString re_example (Path (URL get_order)) = false.
Proof. vm_compute. reflexivity. Qed.

Lemma example_matches_url :
  MatchString re_example (URL_String (URL get_order)) = true.
Proof. vm_compute. reflexivity. Qed.

Lemma replacePath_rewrites (h : Headers) :
  call replacePath get_order h <> Ok (get_order, h).
Proof. simpl. unfold ret, get_order, order_url. simpl. intros [= ]. Qed.

(** C2. The claim fails on a request for [http://example.com/order/111].
    Its path [/order/111] matches [^/order/], but the guarded filter
    returns the request unchanged where the unguarded filter rewrites it;
    its path does not match [example], but the filter guarded by that
    pattern rewrites it. The pattern is matched against the whole URL. *)
Lemma OnPath_does_not_match_the_path :
  (OnPath replacePath "^/order/" = Ok (on_path re_order_anchored) /\
   MatchString re_order_anchored (Path (URL get_order)) = true /\
   call (on_path re_order_anchored) get_order h_empty
     = Ok (get_order, h_empty) /\
   call replacePath get_order h_empty <> Ok (get_order, h_empty)) /\
  (OnPath replacePath "example" = Ok (on_path re_example) /\
   MatchString re_example (Path (URL get_order)) = false /\
   call (on_path re_example) get_order h_empty
     = call replacePath get_order h_empty /\
   call (on_path re_example) get_order h_empty <> Ok (get_order, h_empty)).
Proof.
  assert (Ha : call (on_path re_order_anchored) get_order h_empty
               = Ok (get_order, h_empty)).
  { unfold on_path, call. rewrite anchored_misses_url. reflexivity. }
  assert (He : call (on_path re_example) get_order h_empty
               = call replacePath get_order h_empty).
  { unfold on_path, call. rewrite example_matches_url. reflexivity. }
  split; split.
  - exact OnPath_order_anchored.
  - split; [exact anchored_matches_path |].
    split; [exact Ha | apply replacePath_rewrites].
  - exact OnPath_example.
  - split; [exact example_misses_path |].
    split; [exact He |]. rewrite He. apply replacePath_rewrites.
Qed.

(** [OnPath_empty_pattern] with the implemented [regexp]. *)
Lemma OnPath_empty_pattern_witness :
  exists g, OnPath replacePath "" = Ok g /\
    forall x h, call g x h = call replacePath x h.
Proof.
  apply (OnPath_empty_pattern (imp := Go.imports) replacePath
           (Go.Star Go.AnyCharNotNL)).
  - reflexivity.
  - apply star_matches_everything.
Defined.

Lemma OnPath_order : OnPath replacePath "/order/" = Ok (on_path re_order).
Proof. exact (OnPath_compiled replacePath "/order/" re_order Compile_order). Qed.

Lemma Compile_unclosed_group : Compile "(" = None.
Proof. reflexivity. Qed.

(** [OnPath_fails_at_construction] with an unclosed group, and with the
    pattern of example 7. *)
Lemma OnPath_fails_at_construction_witness :
  (exists msg, OnPath replacePath "(" = Panic msg) /\
  (on_path re_order <> None /\
   forall x h, call (on_path re_order) x h = Ok (x, h) \/
               call (on_path re_order) x h = call replacePath x h).
Proof.
  split.
  - apply (OnPath_fails_at_construction replacePath "(");
      [discriminate | exact Compile_unclosed_group].
  - apply (OnPath_fails_at_construction replacePath "/order/" ).
    exact OnPath_order.
Defined.
(** *** Header filters *)

Lemma add_test_header_run :
  call add_test_header get_order h_empty = Ok (get_order, h_test).
Proof. vm_compute. reflexivity. Qed.

Lemma delete_accept_run :
  call (RequestDeleteHeaderKeys ["accept"]) get_order h_accept
    = Ok (get_order, h_empty).
Proof. vm_compute. reflexivity. Qed.

Lemma header_of_h_empty : header_of h_empty get_order = Some ∅.
Proof. vm_compute. reflexivity. Qed.

Lemma header_of_h_test :
  header_of h_test get_order = Some {[ "X-Test" := ["1"] ]}.
Proof. vm_compute. reflexivity. Qed.

Lemma header_of_h_accept :
  header_of h_accept get_order = Some {[ "Accept" := ["text/html"] ]}.
Proof. vm_compute. reflexivity. Qed.

Lemma singleton_header_nonempty (k : string) (vs : list string) :
  ({[ k := vs ]} : http_Header) <> ∅.
Proof. apply map_non_empty_singleton. Qed.

(** C1. The claim fails on a request whose header is the empty map at
    address 1: after [RequestAddHeaderValue] has run, the request that was
    passed in reads a header with the added value; and on a request whose
    header has an [Accept] value, after [RequestDeleteHeaderKeys] the
    request that was passed in reads an empty header. *)
Lemma header_filters_change_their_input :
  (exists h',
     call add_test_header get_order h_empty = Ok (get_order, h') /\
     header_of h' get_order <> header_of h_empty get_order) /\
  (exists h',
     call (RequestDeleteHeaderKeys ["accept"]) get_order h_accept
       = Ok (get_order, h') /\
     header_of h' get_order <> header_of h_accept get_order).
Proof.
  split.
  - exists h_test. split; [exact add_test_header_run |].
    rewrite header_of_h_test, header_of_h_empty. intros Heq.
    apply (singleton_header_nonempty "X-Test" ["1"]). congruence.
  - exists h_empty. split; [exact delete_accept_run |].
    rewrite header_of_h_empty, header_of_h_accept. intros Heq.
    apply (singleton_header_nonempty "Accept" ["text/html"]). congruence.
Qed.

Lemma get_order_has_header : is_Some (Header get_order).
Proof. exists 1%positive. reflexivity. Qed.

(** [header_filters_update_in_place] on the same requests. *)
Lemma header_filters_update_in_place_witness :
  (exists h',
     call add_test_header get_order h_accept = Ok (get_order, h') /\
     header_of h' get_order
       = header_add "X-Test" "1" <$> header_of h_accept get_order /\
     forall l, Header get_order <> Some l -> h' !! l = h_accept !! l) /\
  (exists h',
     call (RequestDeleteHeaderKeys ["accept"]) get_order h_accept
       = Ok (get_order, h') /\
     header_of h' get_order
       = fold_left (fun hd k => header_del k hd) ["accept"]
           <$> header_of h_accept get_order /\
     forall l, Header get_order <> Some l -> h' !! l = h_accept !! l).
Proof.
  split.
  - exact (proj1 (header_filters_update_in_place "X-Test" "1" ["accept"]
                    get_order h_accept) get_order_has_header).
  - exact (proj2 (header_filters_update_in_place "X-Test" "1" ["accept"]
                    get_order h_accept)).
Defined.

Lemma Values_accept :
  Values (h_accept !!! 1%positive) "accept" = ["text/html"].
Proof. vm_compute. reflexivity. Qed.

(** [RequestAddHeaderValue_appends] on a header that has an [Accept]
    value, with the key written in lower case. *)
Lemma RequestAddHeaderValue_appends_witness :
  exists h',
    call (RequestAddHeaderValue "accept" "application/json") get_order h_accept
      = Ok (get_order, h') /\
    Values (h' !!! 1%positive) "accept" = ["text/html"] ++ ["application/json"] /\
    forall k', CanonicalMIMEHeaderKey k' <> CanonicalMIMEHeaderKey "accept" ->
      Values (h' !!! 1%positive) k' = Values (h_accept !!! 1%positive) k'.
Proof.
  apply (RequestAddHeaderValue_appends "accept" "application/json"
           get_order h_accept 1%positive ["text/html"]).
  - reflexivity.
  - exact Values_accept.
Defined.
(** A map that was written directly under a key that is not canonical keeps
    that entry: the value goes under the canonical key, where [Values]
    reads. *)
Example Add_goes_under_the_canonical_key :
  header_add "accept" "text/html" {[ "accept" := ["text/plain"] ]}
    = {[ "accept" := ["text/plain"]; "Accept" := ["text/html"] ]}.
Proof. vm_compute. reflexivity. Qed.

(** *** Chains *)

Lemma elems_chain2 : elems arrays2 chain2 = two_filters.
Proof. vm_compute. reflexivity. Qed.

Lemma elems_chain1 : elems arrays2 chain1 = [pure_filter drop_body].
Proof. vm_compute. reflexivity. Qed.

Lemma wf_chain2 : wf_slice arrays2 chain2.
Proof. split; [simpl; lia | vm_compute; lia]. Qed.

Lemma wf_chain1 : wf_slice arrays2 chain1.
Proof. split; [simpl; lia | vm_compute; lia]. Qed.

(** [combined_folds_in_order] on a chain of two filters. *)
Lemma combined_folds_in_order_witness :
  call (combined arrays2 chain2) post_order h_empty
    = apply_spec (elems arrays2 chain2) post_order h_empty /\
  call (combined arrays2 chain2) post_order h_empty
    = bind (call (pure_filter (set_method "PUT")) post_order)
           (range_loop [pure_filter drop_body]) h_empty /\
  call (combined arrays2 chain2) post_order h_empty
    = Ok (fold_left (fun a p => p a) [set_method "PUT"; drop_body] post_order,
          h_empty).
Proof.
  pose proof (combined_folds_in_order arrays2 chain2 post_order h_empty)
    as (Hfold & Hcons & Hpure).
  split; [exact Hfold | split].
  - exact (Hcons _ _ elems_chain2).
  - exact (Hpure [set_method "PUT"; drop_body] elems_chain2).
Defined.

Example combined_chain2 :
  call (combined arrays2 chain2) post_order h_empty
    = Ok (mkRequest (Some 1%positive) [] "PUT" order_url, h_empty).
Proof. vm_compute. reflexivity. Qed.

(** [Append_elems] on a chain with a spare slot in its array. *)
Lemma Append_elems_witness :
  elems (Append chain2 chain1 arrays2).2 (Append chain2 chain1 arrays2).1
    = elems arrays2 chain2 ++ elems arrays2 chain1 /\
  elems (Append chain2 chain1 arrays2).2 chain2 = elems arrays2 chain2.
Proof.
  exact (Append_elems arrays2 _ chain2 chain1 _ wf_chain2
           (surjective_pairing _)).
Defined.

(** There the new element went into the spare slot: the chain returned
    lies over the array of the chain appended to. *)
Example Append_in_place :
  (Append chain2 chain1 arrays2).1 = mkSlice (Some 1%positive) 0 3 3.
Proof. vm_compute. reflexivity. Qed.

(** Without room, the elements move to a new array. *)
Example Append_grows :
  (Append chain1 chain2 arrays2).1 = mkSlice (Some 2%positive) 0 3 3.
Proof. vm_compute. reflexivity. Qed.

(** [Prepend_elems] on the same chains. *)
Lemma Prepend_elems_witness :
  elems (Prepend chain1 chain2 arrays2).2 (Prepend chain1 chain2 arrays2).1
    = elems arrays2 chain2 ++ elems arrays2 chain1 /\
  elems (Prepend chain1 chain2 arrays2).2 chain1 = elems arrays2 chain1 /\
  (exists l, array (Prepend chain1 chain2 arrays2).1 = Some l /\
             (l ∉ dom arrays2)) /\
  (forall l, l ∈ dom arrays2 ->
     (Prepend chain1 chain2 arrays2).2 !! l = arrays2 !! l).
Proof.
  exact (Prepend_elems arrays2 _ chain1 chain2 _ wf_chain1 wf_chain2
           (surjective_pairing _)).
Defined.

Example Prepend_chain :
  (Prepend chain1 chain2 arrays2).1 = mkSlice (Some 2%positive) 0 3 3.
Proof. vm_compute. reflexivity. Qed.
(** *** Further runs *)

Lemma get_order_header : Header get_order = Some 1%positive.
Proof. reflexivity. Qed.

Lemma RequestDeleteHeaderKeys_removes_witness :
  exists h',
    call (RequestDeleteHeaderKeys ["accept"]) get_order h_accept
      = Ok (get_order, h') /\
    (forall k, k ∈ ["accept"] ->
       (h' !!! 1%positive) !! CanonicalMIMEHeaderKey k = None /\
       Values (h' !!! 1%positive) k = []) /\
    (forall ck, ck ∉ map CanonicalMIMEHeaderKey ["accept"] ->
       (h' !!! 1%positive) !! ck = (h_accept !!! 1%positive) !! ck).
Proof.
  exact (RequestDeleteHeaderKeys_removes ["accept"] get_order h_accept
           1%positive get_order_header).
Defined.

Lemma x_missing_absent (l : loc) (k : string) :
  Header get_order = Some l -> k ∈ ["X-Missing"] ->
  (h_accept !!! l) !! CanonicalMIMEHeaderKey k = None.
Proof.
  intros [= <-] Hk. apply list_elem_of_singleton in Hk as ->.
  vm_compute. reflexivity.
Qed.

Lemma RequestDeleteHeaderKeys_absent_witness :
  exists h',
    call (RequestDeleteHeaderKeys ["X-Missing"]) get_order h_accept
      = Ok (get_order, h') /\
    header_of h' get_order = header_of h_accept get_order /\
    (Header get_order = None \/ ["X-Missing"] = [] -> h' = h_accept).
Proof.
  exact (RequestDeleteHeaderKeys_absent ["X-Missing"] get_order h_accept
           x_missing_absent).
Defined.

Lemma RequestDeleteHeaderKeys_idempotent_witness :
  call (RequestDeleteHeaderKeys ["accept"]) get_order h_empty
    = Ok (get_order, h_empty).
Proof.
  exact (RequestDeleteHeaderKeys_idempotent ["accept"] get_order h_accept
           h_empty get_order delete_accept_run).
Defined.

Lemma accept_spellings (ck : string) :
  ck ∈ map CanonicalMIMEHeaderKey ["accept"; "ACCEPT"] <->
  ck ∈ map CanonicalMIMEHeaderKey ["Accept"].
Proof.
  change (ck ∈ ["Accept"; "Accept"] <-> ck ∈ ["Accept"]).
  rewrite !elem_of_cons. tauto.
Qed.

Lemma RequestDeleteHeaderKeys_same_keys_witness :
  call (RequestDeleteHeaderKeys ["accept"; "ACCEPT"]) get_order h_accept =
  call (RequestDeleteHeaderKeys ["Accept"]) get_order h_accept.
Proof.
  exact (RequestDeleteHeaderKeys_same_keys ["accept"; "ACCEPT"] ["Accept"]
           get_order h_accept accept_spellings).
Defined.

Lemma add_then_delete_witness :
  exists h',
    range_loop [RequestAddHeaderValue "X-Test" "1";
                RequestDeleteHeaderKeys ["X-Test"]] get_order h_empty
      = Ok (get_order, h') /\
    h' !!! 1%positive = header_del "X-Test" (h_empty !!! 1%positive) /\
    ((h_empty !!! 1%positive) !! CanonicalMIMEHeaderKey "X-Test" = None ->
     h' !!! 1%positive = h_empty !!! 1%positive).
Proof.
  exact (add_then_delete "X-Test" "1" get_order h_empty 1%positive
           get_order_header).
Defined.

Lemma accept_same_canonical :
  CanonicalMIMEHeaderKey "accept" = CanonicalMIMEHeaderKey "ACCEPT".
Proof. vm_compute. reflexivity. Qed.

Lemma add_twice_accumulates_witness :
  exists h',
    range_loop [RequestAddHeaderValue "accept" "text/plain";
                RequestAddHeaderValue "ACCEPT" "application/json"]
      get_order h_accept = Ok (get_order, h') /\
    Values (h' !!! 1%positive) "accept"
      = Values (h_accept !!! 1%positive) "accept"
        ++ ["text/plain"; "application/json"] /\
    Values (h' !!! 1%positive) "ACCEPT"
      = Values (h_accept !!! 1%positive) "accept"
        ++ ["text/plain"; "application/json"].
Proof.
  exact (add_twice_accumulates "accept" "ACCEPT" "text/plain"
           "application/json" get_order h_accept 1%positive
           get_order_header accept_same_canonical).
Defined.

Lemma get_is_not_post : "GET" <> "POST".
Proof. discriminate. Qed.

Lemma OnMethod_nested_witness :
  call (OnMethod (OnMethod add_test_header "GET") "POST") get_order h_empty
    = Ok (get_order, h_empty) /\
  call (OnMethod (OnMethod add_test_header "GET") "GET") get_order h_empty
    = call (OnMethod add_test_header "GET") get_order h_empty.
Proof.
  split.
  - exact (proj1 (OnMethod_nested add_test_header "GET" "POST" get_order
                    h_empty) get_is_not_post).
  - exact (proj2 (OnMethod_nested add_test_header "GET" "GET" get_order
                    h_empty) eq_refl).
Defined.



Lemma Append_well_formed_witness :
  wf_slice (Append chain2 chain1 arrays2).2 (Append chain2 chain1 arrays2).1 /\
  wf_slice (Append chain2 chain1 arrays2).2 chain2 /\
  len (Append chain2 chain1 arrays2).1 = len chain2 + len chain1.
Proof.
  exact (Append_well_formed arrays2 _ chain2 chain1 _ wf_chain2 wf_chain1
           (surjective_pairing _)).
Defined.

Lemma chain2_has_room : len chain2 + length (elems arrays2 chain1) <= cap chain2.
Proof. vm_compute. lia. Qed.

Lemma chain_first_length :
  length (elems (Append chain2 chain1 arrays2).2 chain_first)
  = length (elems arrays2 chain1).
Proof. vm_compute. reflexivity. Qed.

Lemma Append_overwrites_earlier_result_witness :
  (Append chain2 chain_first (Append chain2 chain1 arrays2).2).1
    = (Append chain2 chain1 arrays2).1 /\
  array (Append chain2 chain1 arrays2).1 = array chain2 /\
  elems (Append chain2 chain1 arrays2).2 (Append chain2 chain1 arrays2).1
    = elems arrays2 chain2 ++ elems arrays2 chain1 /\
  elems (Append chain2 chain_first (Append chain2 chain1 arrays2).2).2
        (Append chain2 chain1 arrays2).1
    = elems arrays2 chain2 ++ elems (Append chain2 chain1 arrays2).2 chain_first.
Proof.
  exact (Append_overwrites_earlier_result arrays2 chain2 chain1 chain_first
           wf_chain2 chain2_has_room chain_first_length).
Defined.

(** There the third filter of the chain returned first was [drop_body] and
    is [set_method "PUT"] after the second call. *)
Example Append_overwrites_run :
  elems (Append chain2 chain1 arrays2).2 (Append chain2 chain1 arrays2).1
    = two_filters ++ [pure_filter drop_body] /\
  elems (Append chain2 chain_first (Append chain2 chain1 arrays2).2).2
        (Append chain2 chain1 arrays2).1
    = two_filters ++ [pure_filter (set_method "PUT")].
Proof. split; vm_compute; reflexivity. Qed.

Lemma chain1_is_full : cap chain1 < len chain1 + length (elems arrays2 chain2).
Proof. vm_compute. lia. Qed.

Lemma Append_full_copies_witness :
  (exists l, array (Append chain1 chain2 arrays2).1 = Some l /\
             (l ∉ dom arrays2)) /\
  offset (Append chain1 chain2 arrays2).1 = 0 /\
  (forall l, l ∈ dom arrays2 ->
     (Append chain1 chain2 arrays2).2 !! l = arrays2 !! l) /\
  (forall t, wf_slice arrays2 t ->
     elems (Append chain1 chain2 arrays2).2 t = elems arrays2 t).
Proof.
  exact (Append_full_copies arrays2 _ chain1 chain2 _ chain1_is_full
           (surjective_pairing _)).
Defined.

Lemma Prepend_exactly_sized_witness :
  wf_slice (Prepend chain1 chain2 arrays2).2 (Prepend chain1 chain2 arrays2).1 /\
  offset (Prepend chain1 chain2 arrays2).1 = 0 /\
  len (Prepend chain1 chain2 arrays2).1 = len chain2 + len chain1 /\
  cap (Prepend chain1 chain2 arrays2).1 = len chain2 + len chain1.
Proof.
  exact (Prepend_exactly_sized arrays2 _ chain1 chain2 _ wf_chain1 wf_chain2
           (surjective_pairing _)).
Defined.

Lemma combined_Append_witness :
  call (combined (Append chain2 chain1 arrays2).2
                 (Append chain2 chain1 arrays2).1) post_order h_empty
  = bind (call (combined arrays2 chain2) post_order)
         (call (combined arrays2 chain1)) h_empty.
Proof.
  exact (combined_Append arrays2 _ chain2 chain1 _ post_order h_empty
           wf_chain2 (surjective_pairing _)).
Defined.

Lemma combined_Prepend_witness :
  call (combined (Prepend chain1 chain2 arrays2).2
                 (Prepend chain1 chain2 arrays2).1) post_order h_empty
  = bind (call (combined arrays2 chain2) post_order)
         (call (combined arrays2 chain1)) h_empty.
Proof.
  exact (combined_Prepend arrays2 _ chain1 chain2 _ post_order h_empty
           wf_chain1 wf_chain2 (surjective_pairing _)).
Defined.

Lemma combined_unchanged_witness :
  call (combined (Append chain2 chain1 arrays2).2 chain2) post_order h_empty
    = call (combined arrays2 chain2) post_order h_empty /\
  call (combined (Prepend chain2 chain1 arrays2).2 chain2) post_order h_empty
    = call (combined arrays2 chain2) post_order h_empty.
Proof.
  split.
  - exact (combined_unchanged arrays2 _ chain2 chain1 _ post_order h_empty
             wf_chain2 wf_chain1 (or_introl (surjective_pairing _))).
  - exact (combined_unchanged arrays2 _ chain2 chain1 _ post_order h_empty
             wf_chain2 wf_chain1 (or_intror (surjective_pairing _))).
Defined.

Lemma elems_chain3 : elems arrays2 chain3 = two_filters ++ None :: [].
Proof. vm_compute. reflexivity. Qed.

Lemma two_filters_run :
  range_loop two_filters post_order h_empty
  = Ok (mkRequest (Some 1%positive) [] "PUT" order_url, h_empty).
Proof. vm_compute. reflexivity. Qed.

Lemma combined_stops_at_panic_witness :
  call (combined arrays2 chain3) post_order h_empty
  = Panic "invalid memory address or nil pointer dereference".
Proof.
  exact (combined_stops_at_panic arrays2 chain3 two_filters [] None
           post_order _ h_empty h_empty _ elems_chain3 two_filters_run
           eq_refl).
Defined.

Lemma empty_has_no_cfg : (∅ : gmap loc RequestFilters) !! 1%positive = None.
Proof. reflexivity. Qed.

Lemma elems_args7 : elems arrays7 args7 = [on_path re_order].
Proof. vm_compute. reflexivity. Qed.

Lemma order_111_matches :
  MatchString re_order (URL_String (URL get_order)) = true.
Proof. vm_compute. reflexivity. Qed.

Lemma order_222_matches :
  MatchString re_order
    (URL_String (URL (with_host_path "localhost:8080" "/order/222" get_order)))
  = true.
Proof. vm_compute. reflexivity. Qed.

Lemma example7_normalises_witness :
  exists c,
    (Add 1%positive args7 ∅ arrays7).1 !! 1%positive = Some c /\
    call (combined (Add 1%positive args7 ∅ arrays7).2 c) get_order h_empty
      = Ok (with_host_path "127.0.0.1" "/order/1234" get_order, h_empty) /\
    call (combined (Add 1%positive args7 ∅ arrays7).2 c)
         (with_host_path "localhost:8080" "/order/222" get_order) h_empty
      = Ok (with_host_path "127.0.0.1" "/order/1234" get_order, h_empty).
Proof.
  exact (example7_normalises re_order arrays7 ∅ 1%positive args7
           (on_path re_order) get_order "localhost:8080" "/order/222" h_empty
           empty_has_no_cfg Compile_order OnPath_order elems_args7
           order_111_matches order_222_matches).
Defined.
Lemma bare_get_header : Header bare_get = None.
Proof. reflexivity. Qed.

Lemma nil_header_witness :
  call (RequestAddHeaderValue "X-Test" "1") bare_get h_empty
    = Panic "assignment to entry in nil map" /\
  ("GET" <> "POST" ->
   call (OnMethod (RequestAddHeaderValue "X-Test" "1") "POST") bare_get h_empty
     = Ok (bare_get, h_empty)) /\
  call (RequestDeleteHeaderKeys ["accept"]) bare_get h_empty
    = Ok (bare_get, h_empty).
Proof.
  exact (nil_header "X-Test" "1" "POST" ["accept"] bare_get h_empty
           bare_get_header).
Defined.
End Runs.




